(** * Grid path search of ROBOT.py: breadth-first and depth-first traversal

    A shallow embedding of [is_valid_move], [bfs] and [dfs] of
    [src/ROBOT.py], followed by the properties of the two searches.

    Python values are modelled as follows.
    - A cell is a tuple of two Python integers: [Z * Z].
    - The grid is a list of rows, each a list of integers (0 = free).
    - [visited] is a list of rows of booleans.
    - [parent] is a dict from cells to a cell or [None]: a [gmap] whose
      values are [option cell].
    - A Python list subscript accepts negative indices and raises
      [IndexError] out of range; a dict subscript raises [KeyError].
    - The two [while] loops are given fuel: every loop of a call may run
      at most [fuel] iterations, after which the model answers
      [OutOfFuel]. *)

From stdpp Require Import base tactics option list gmap.
From stdpp Require Import strings.
From Stdlib Require Import ZArith Lia.

Open Scope Z_scope.

(** ** Outcomes of a Python computation *)

Inductive exn : Type :=
| IndexError
| KeyError.

Inductive outcome (A : Type) : Type :=
| Ret (a : A)
| Raise (e : exn)
| OutOfFuel.

Arguments Ret {A} a.
Arguments Raise {A} e.
Arguments OutOfFuel {A}.

Definition obind {A B : Type} (m : outcome A) (k : A → outcome B) : outcome B :=
  match m with
  | Ret a => k a
  | Raise e => Raise e
  | OutOfFuel => OutOfFuel
  end.

Notation "'let!' x ':=' m 'in' k" := (obind m (fun x => k))
  (at level 10, x pattern, m at level 100, k at level 200).

(** ** Python lists *)

Module Py.

(** Position designated by the subscript [i] in a list of [len]
    elements: [0 .. len-1] as they are, [-len .. -1] counted from the
    end, nothing otherwise. *)
Definition index (len : nat) (i : Z) : option nat :=
  if decide (0 ≤ i < Z.of_nat len) then Some (Z.to_nat i)
  else if decide (- Z.of_nat len ≤ i < 0) then Some (Z.to_nat (Z.of_nat len + i))
  else None.

(** [l[i]] *)
Definition getitem {A : Type} (l : list A) (i : Z) : outcome A :=
  match index (length l) i with
  | Some n => match l !! n with
              | Some a => Ret a
              | None => Raise IndexError
              end
  | None => Raise IndexError
  end.

(** [l[i] = a] *)
Definition setitem {A : Type} (l : list A) (i : Z) (a : A) : outcome (list A) :=
  match index (length l) i with
  | Some n => Ret (<[n := a]> l)
  | None => Raise IndexError
  end.

(** [l.pop()]: the last element and the list without it. *)
Definition pop {A : Type} (l : list A) : option (A * list A) :=
  match reverse l with
  | [] => None
  | a :: r => Some (a, reverse r)
  end.

(** [q.popleft()]: the first element and the rest. *)
Definition popleft {A : Type} (l : list A) : option (A * list A) :=
  match l with
  | [] => None
  | a :: r => Some (a, r)
  end.

End Py.

(** ** The program *)

Definition cell : Type := Z * Z.

(** [directions = [(-1, 0), (1, 0), (0, -1), (0, 1)]] *)
Definition directions : list (Z * Z) := [(-1, 0); (1, 0); (0, -1); (0, 1)].

(** [is_valid_move(x, y, grid, visited)]: the four conjuncts are
    evaluated from left to right and the evaluation stops at the first
    false one. *)
Definition is_valid_move (x y : Z) (grid : list (list Z))
    (visited : list (list bool)) : outcome bool :=
  if bool_decide (0 ≤ x < Z.of_nat (length grid)) then
    let! row0 := Py.getitem grid 0 in
    if bool_decide (0 ≤ y < Z.of_nat (length row0)) then
      let! row := Py.getitem grid x in
      let! occ := Py.getitem row y in
      if bool_decide (occ = 0) then
        let! vrow := Py.getitem visited x in
        let! v := Py.getitem vrow y in
        Ret (negb v)
      else Ret false
    else Ret false
  else Ret false.

(** [visited[x][y] = True] *)
Definition mark (visited : list (list bool)) (x y : Z) : outcome (list (list bool)) :=
  let! vrow := Py.getitem visited x in
  let! vrow' := Py.setitem vrow y true in
  Py.setitem visited x vrow'.

(** [[[False for _ in range(len(grid[0]))] for _ in range(len(grid))]]:
    [grid[0]] is evaluated once per row, so not at all on an empty grid. *)
Fixpoint fresh_rows (grid : list (list Z)) (n : nat) : outcome (list (list bool)) :=
  match n with
  | O => Ret []
  | S n' =>
      let! row0 := Py.getitem grid 0 in
      let! rest := fresh_rows grid n' in
      Ret (replicate (length row0) false :: rest)
  end.

Definition fresh_visited (grid : list (list Z)) : outcome (list (list bool)) :=
  fresh_rows grid (length grid).

(** The variables of a search that its loops update. *)
Record state : Type := State {
  frontier : list cell;
  visited : list (list bool);
  parent : gmap cell (option cell)
}.

(** The body of [for direction in directions], the same in [bfs] and
    [dfs]: [frontier] is [queue] there and [stack] here. *)
Definition visit (grid : list (list Z)) (current : cell) (st : state)
    (direction : Z * Z) : outcome state :=
  let new_x := current.1 + direction.1 in
  let new_y := current.2 + direction.2 in
  let! ok := is_valid_move new_x new_y grid (visited st) in
  if ok then
    let! visited' := mark (visited st) new_x new_y in
    Ret (State (frontier st ++ [(new_x, new_y)]) visited'
               (<[(new_x, new_y) := Some current]> (parent st)))
  else Ret st.

Fixpoint for_each (grid : list (list Z)) (current : cell) (ds : list (Z * Z))
    (st : state) : outcome state :=
  match ds with
  | [] => Ret st
  | d :: ds' => let! st' := visit grid current st d in for_each grid current ds' st'
  end.

(** [while current: path.append(current); current = parent[current]].
    A tuple of two integers is true and [None] is false, so the loop
    runs until the entry of [parent] is [None]. *)
Fixpoint walk_back (fuel : nat) (parent : gmap cell (option cell))
    (current : option cell) (path : list cell) : outcome (list cell) :=
  match current with
  | None => Ret path
  | Some c =>
      match fuel with
      | O => OutOfFuel
      | S fuel' =>
          match parent !! c with
          | None => Raise KeyError
          | Some p => walk_back fuel' parent p (path ++ [c])
          end
      end
  end.

(** The path reconstruction of both searches, ending in [path[::-1]]. *)
Definition reconstruct (fuel : nat) (parent : gmap cell (option cell))
    (current : cell) : outcome (list cell) :=
  let! path := walk_back fuel parent (Some current) [] in
  Ret (reverse path).

(** [while queue: current = queue.popleft() ...] of [bfs]. [budget] is
    the fuel of the reconstruction loop. *)
Fixpoint bfs_loop (fuel budget : nat) (grid : list (list Z)) (end_ : cell)
    (st : state) : outcome (list cell) :=
  match Py.popleft (frontier st) with
  | None => Ret []
  | Some (current, queue) =>
      match fuel with
      | O => OutOfFuel
      | S fuel' =>
          if decide (current = end_) then reconstruct budget (parent st) current
          else
            let! st' := for_each grid current directions
                          (State queue (visited st) (parent st)) in
            bfs_loop fuel' budget grid end_ st'
      end
  end.

(** [while stack: current = stack.pop() ...] of [dfs]. *)
Fixpoint dfs_loop (fuel budget : nat) (grid : list (list Z)) (end_ : cell)
    (st : state) : outcome (list cell) :=
  match Py.pop (frontier st) with
  | None => Ret []
  | Some (current, stack) =>
      match fuel with
      | O => OutOfFuel
      | S fuel' =>
          if decide (current = end_) then reconstruct budget (parent st) current
          else
            let! st' := for_each grid current directions
                          (State stack (visited st) (parent st)) in
            dfs_loop fuel' budget grid end_ st'
      end
  end.

(** The statements of [bfs] and [dfs] before the loop. *)
Definition initial (start : cell) (grid : list (list Z)) : outcome state :=
  let! visited := fresh_visited grid in
  let! visited' := mark visited start.1 start.2 in
  Ret (State [start] visited' {[ start := None ]}).

Definition bfs (fuel : nat) (start end_ : cell) (grid : list (list Z))
    : outcome (list cell) :=
  let! st := initial start grid in
  bfs_loop fuel fuel grid end_ st.

Definition dfs (fuel : nat) (start end_ : cell) (grid : list (list Z))
    : outcome (list cell) :=
  let! st := initial start grid in
  dfs_loop fuel fuel grid end_ st.

(** [create_grid(rows, cols)] *)
Definition create_grid (rows cols : nat) : list (list Z) :=
  replicate rows (replicate cols 0).


(** ** Vocabulary of the properties *)

Definition rows (grid : list (list Z)) : nat := length grid.
Definition cols (grid : list (list Z)) : nat := length (default [] (head grid)).

Definition in_bounds (grid : list (list Z)) (c : cell) : Prop :=
  0 ≤ c.1 < Z.of_nat (rows grid) ∧ 0 ≤ c.2 < Z.of_nat (cols grid).

(** The occupancy flag of a cell with non-negative coordinates. *)
Definition occupancy (grid : list (list Z)) (c : cell) : option Z :=
  grid !! Z.to_nat c.1 ≫= fun row => row !! Z.to_nat c.2.

Definition free (grid : list (list Z)) (c : cell) : Prop :=
  in_bounds grid c ∧ occupancy grid c = Some 0.

Definition blocked (grid : list (list Z)) (c : cell) : Prop :=
  in_bounds grid c ∧ ∃ occ, occupancy grid c = Some occ ∧ occ ≠ 0.

(** A grid in the sense of the data model: every row as long as the first. *)
Definition rectangular (grid : list (list Z)) : Prop :=
  Forall (fun row => length row = cols grid) grid.

(** [b] is one move away from [a]. *)
Definition step (a b : cell) : Prop :=
  ∃ d, d ∈ directions ∧ b = (a.1 + d.1, a.2 + d.2).

(** Consecutive cells are one move apart. *)
Fixpoint steps (p : list cell) : Prop :=
  match p with
  | [] => True
  | a :: r => match r with
              | [] => True
              | b :: _ => step a b ∧ steps r
              end
  end.

(** A route from [a] to [b]: a sequence of moves whose cells after the
    first are free cells of the grid. *)
Definition route (grid : list (list Z)) (a b : cell) (p : list cell) : Prop :=
  head p = Some a ∧ last p = Some b ∧ steps p ∧ Forall (free grid) (tail p).

(** A route through free cells: the first cell is free as well. *)
Definition free_route (grid : list (list Z)) (a b : cell) (p : list cell) : Prop :=
  route grid a b p ∧ free grid a.

Definition reachable (grid : list (list Z)) (a b : cell) : Prop :=
  ∃ p, route grid a b p.

Definition manhattan (a b : cell) : Z := Z.abs (a.1 - b.1) + Z.abs (a.2 - b.2).

(** The flag of a cell with non-negative coordinates in [visited]. *)
Definition flag (v : list (list bool)) (c : cell) : option bool :=
  v !! Z.to_nat c.1 ≫= fun row => row !! Z.to_nat c.2.

(** Number of [False] entries of [visited]. *)
Definition unmarked_row (r : list bool) : nat := length (filter (fun b => b = false) r).
Definition unmarked (v : list (list bool)) : nat := sum_list (unmarked_row <$> v).

Definition shape (n m : nat) (v : list (list bool)) : Prop :=
  length v = n ∧ Forall (fun r => length r = m) v.

(** ** Invariants of the loops *)

(** The cells a search can still enter when its loop starts: free, and
    not marked in the initial [visited]. *)
Definition open (grid : list (list Z)) (v0 : list (list bool)) (c : cell) : Prop :=
  free grid c ∧ flag v0 c = Some false.

(** The cells that have a predecessor entry. *)
Definition known (st : state) (c : cell) : Prop := is_Some (parent st !! c).

(** [parent] is a tree rooted at [start]; [d] is the depth of its cells. *)
Record tree (grid : list (list Z)) (v0 : list (list bool)) (start : cell)
    (d : cell → nat) (st : state) : Prop := Tree {
  tree_root : parent st !! start = Some None;
  tree_root_depth : d start = O;
  tree_none : ∀ c, parent st !! c = Some None → c = start;
  tree_edge : ∀ c u, parent st !! c = Some (Some u) →
      open grid v0 c ∧ step u c ∧ known st u ∧ d c = S (d u);
  tree_flag : ∀ c, free grid c →
      (flag (visited st) c = Some false ↔ open grid v0 c ∧ parent st !! c = None);
  tree_frontier : ∀ c, c ∈ frontier st → known st c;
  tree_depth : ∀ c, known st c → (d c < size (parent st))%nat
}.

(** A cell that has been expanded: it is not the destination and its
    enterable neighbours are known. *)
Definition closed (grid : list (list Z)) (v0 : list (list bool)) (end_ : cell)
    (st : state) (c : cell) : Prop :=
  c ≠ end_ ∧ ∀ w, step c w → open grid v0 w → known st w.

(** Every known cell waits in the frontier, is being expanded ([cur]) or
    has been expanded. *)
Definition explored (grid : list (list Z)) (v0 : list (list bool)) (end_ : cell)
    (cur : option cell) (st : state) : Prop :=
  ∀ c, known st c → c ∈ frontier st ∨ cur = Some c ∨ closed grid v0 end_ st c.

(** The queue of [bfs] holds cells of depth [n] followed by cells of
    depth [n + 1]; expanded cells are no deeper than [n] and their
    neighbours at most one deeper than they are. *)
Record layered (grid : list (list Z)) (v0 : list (list bool)) (start : cell)
    (d : cell → nat) (n : nat) (cur : option cell) (st : state) : Prop := Layered {
  layered_sorted : ∀ i j a b, (i ≤ j)%nat →
      frontier st !! i = Some a → frontier st !! j = Some b → (d a ≤ d b)%nat;
  layered_range : ∀ c, c ∈ frontier st → (n ≤ d c ≤ S n)%nat;
  layered_closed : ∀ c, known st c →
      c ∈ frontier st ∨ cur = Some c ∨
      ((d c ≤ n)%nat ∧
       ∀ w, step c w → open grid v0 w ∨ w = start → known st w ∧ (d w ≤ S (d c))%nat)
}.

(** The state while the neighbours of [u] are examined. [lay] switches
    the queue discipline of [bfs] on. *)
Definition expanding (grid : list (list Z)) (v0 : list (list bool))
    (start end_ : cell) (lay : Prop) (d : cell → nat) (u : cell) (st : state) : Prop :=
  tree grid v0 start d st ∧ known st u ∧ explored grid v0 end_ (Some u) st ∧
  (lay → layered grid v0 start d (d u) (Some u) st).

(** The neighbour [w] of [u] has been dealt with. *)
Definition handled (grid : list (list Z)) (v0 : list (list bool)) (start : cell)
    (lay : Prop) (d : cell → nat) (u : cell) (st : state) (w : cell) : Prop :=
  open grid v0 w ∨ w = start → known st w ∧ (lay → (d w ≤ S (d u))%nat).

(** [st'] knows the cells of [st], at the same depth. *)
Definition extends (d d' : cell → nat) (st st' : state) : Prop :=
  ∀ c, known st c → known st' c ∧ d' c = d c.

(** The neighbour of a cell in a direction. *)
Definition move (u : cell) (dir : Z * Z) : cell := (u.1 + dir.1, u.2 + dir.2).

(** The state at the head of the [while] loop of a search. *)
Definition loop_inv (grid : list (list Z)) (v0 : list (list bool))
    (start end_ : cell) (lay : Prop) (d : cell → nat) (st : state) : Prop :=
  tree grid v0 start d st ∧ explored grid v0 end_ None st ∧
  (lay → ∀ h, head (frontier st) = Some h →
         layered grid v0 start d (d h) None st).

(** The path from the root of [parent] to a cell, first cell first. *)
Inductive trail (par : gmap cell (option cell)) : cell → list cell → Prop :=
| trail_root c : par !! c = Some None → trail par c [c]
| trail_step c u l : par !! c = Some (Some u) → trail par u l → trail par c (l ++ [c]).

(** A sequence of moves from [start] to [end_] through enterable cells. *)
Definition open_route (grid : list (list Z)) (v0 : list (list bool))
    (start end_ : cell) (q : list cell) : Prop :=
  head q = Some start ∧ last q = Some end_ ∧ steps q ∧
  Forall (fun c => open grid v0 c ∨ c = start) (tail q).

(** What a search returns when it reaches the destination. *)
Definition found (grid : list (list Z)) (v0 : list (list bool))
    (start end_ : cell) (p : list cell) : Prop :=
  head p = Some start ∧ last p = Some end_ ∧ steps p ∧
  Forall (open grid v0) (tail p) ∧ NoDup p.

(** The loop of both searches, for a frontier discipline [take]. *)
Fixpoint search_loop (take : list cell → option (cell * list cell))
    (fuel budget : nat) (grid : list (list Z)) (end_ : cell)
    (st : state) : outcome (list cell) :=
  match take (frontier st) with
  | None => Ret []
  | Some (current, rest) =>
      match fuel with
      | O => OutOfFuel
      | S fuel' =>
          if decide (current = end_) then reconstruct budget (parent st) current
          else
            let! st' := for_each grid current directions
                          (State rest (visited st) (parent st)) in
            search_loop take fuel' budget grid end_ st'
      end
  end.


(** ** The application around the searches *)

(** [self.cell_size = 50] and [self.grid_size = 10]: assigned in
    [__init__] and nowhere else. *)
Definition cell_size : Z := 50.
Definition grid_size : nat := 10.

(** The attributes of [RobotPuzzleApp] that its methods read and write
    apart from the canvas. *)
Record app : Type := App {
  app_grid : list (list Z);
  app_start : cell;
  app_end : option cell
}.

(** [__init__]: a grid of free cells, start at (0, 0), no destination. *)
Definition new_app : app := App (create_grid grid_size grid_size) (0, 0) None.

(** [self.grid[x][y] = v] *)
Definition assign (grid : list (list Z)) (x y v : Z) : outcome (list (list Z)) :=
  let! row := Py.getitem grid x in
  let! row' := Py.setitem row y v in
  Py.setitem grid x row'.

(** [range(n)] *)
Definition range (n : nat) : list Z := Z.of_nat <$> seq 0 n.

(** [for a in l: f(a)] *)
Fixpoint each {A : Type} (f : A → outcome unit) (l : list A) : outcome unit :=
  match l with
  | [] => Ret tt
  | a :: l' => let! _ := f a in each f l'
  end.

(** [draw_grid] writes to the canvas only. What is kept of it is the
    subscripts it evaluates, [self.grid[i][j]] for [i] and [j] in
    [range(self.grid_size)], which can raise. *)
Definition draw_grid (a : app) : outcome unit :=
  each (fun i =>
          each (fun j =>
                  let! row := Py.getitem (app_grid a) i in
                  let! occ := Py.getitem row j in
                  Ret tt)
               (range grid_size))
       (range grid_size).

(** [set_destination_or_obstacle(self, event)], for a click at the pixel
    ([event.x], [event.y]); [//] rounds down, as [Z.div] does for a
    positive divisor. *)
Definition set_destination_or_obstacle (a : app) (event_x event_y : Z) : outcome app :=
  let x := event_y `div` cell_size in
  let y := event_x `div` cell_size in
  if decide ((x, y) = app_start a) then Ret a
  else
    let! row := Py.getitem (app_grid a) x in
    let! occ := Py.getitem row y in
    if bool_decide (occ = 0) then
      match app_end a with
      | None =>
          let a' := App (app_grid a) (app_start a) (Some (x, y)) in
          let! _ := draw_grid a' in
          Ret a'
      | Some _ =>
          let! grid' := assign (app_grid a) x y 1 in
          let a' := App grid' (app_start a) (app_end a) in
          let! _ := draw_grid a' in
          Ret a'
      end
    else
      let! grid' := assign (app_grid a) x y 0 in
      let a' := App grid' (app_start a) (app_end a) in
      let! _ := draw_grid a' in
      Ret a'.

(** What [find_path_bfs] and [find_path_dfs] do with the result of the
    search: print a message, or call [animate_robot(path, color)]. *)
Inductive report : Type :=
| SelectDestination
| NoPathFound
| Animate (path : list cell) (color : string).

Definition find_path_bfs (fuel : nat) (a : app) : outcome report :=
  match app_end a with
  | None => Ret SelectDestination
  | Some end_ =>
      let! path := bfs fuel (app_start a) end_ (app_grid a) in
      match path with
      | [] => Ret NoPathFound
      | _ :: _ => Ret (Animate path "blue")
      end
  end.

Definition find_path_dfs (fuel : nat) (a : app) : outcome report :=
  match app_end a with
  | None => Ret SelectDestination
  | Some end_ =>
      let! path := dfs fuel (app_start a) end_ (app_grid a) in
      match path with
      | [] => Ret NoPathFound
      | _ :: _ => Ret (Animate path "green")
      end
  end.

(** A sequence of clicks, each given by its pixel, handled in order. *)
Fixpoint clicks (events : list (Z * Z)) (a : app) : outcome app :=
  match events with
  | [] => Ret a
  | (event_x, event_y) :: events' =>
      let! a' := set_destination_or_obstacle a event_x event_y in
      clicks events' a'
  end.

(** A click inside the canvas, which is [cell_size * grid_size] pixels
    wide and high. *)
Definition in_canvas (event_x event_y : Z) : Prop :=
  0 ≤ event_x < cell_size * Z.of_nat grid_size ∧
  0 ≤ event_y < cell_size * Z.of_nat grid_size.

(** The states the application can be in: a [grid_size] by [grid_size]
    grid of zeros and ones with a free start at (0, 0), and a
    destination, once chosen, inside the grid and not on start. *)
Definition well_formed (a : app) : Prop :=
  length (app_grid a) = grid_size ∧
  Forall (fun row => length row = grid_size ∧
                     Forall (fun occ => occ = 0 ∨ occ = 1) row) (app_grid a) ∧
  app_start a = (0, 0) ∧
  occupancy (app_grid a) (0, 0) = Some 0 ∧
  ∀ e, app_end a = Some e → in_bounds (app_grid a) e ∧ e ≠ (0, 0).

(** ** Vocabulary of the further properties *)

(** The grid with the occupancy of the cell [c] set to [v]; [c] has
    non-negative coordinates. *)
Definition set_cell (grid : list (list Z)) (c : cell) (v : Z) : list (list Z) :=
  match grid !! Z.to_nat c.1 with
  | Some row => <[Z.to_nat c.1 := <[Z.to_nat c.2 := v]> row]> grid
  | None => grid
  end.

(** The cell under a pixel of the canvas. *)
Definition cell_at (event_x event_y : Z) : cell :=
  (event_y `div` cell_size, event_x `div` cell_size).

(** The subscripts Python accepts for [visited[start[0]][start[1]]]. *)
Definition valid_subscript (grid : list (list Z)) (c : cell) : Prop :=
  - Z.of_nat (rows grid) ≤ c.1 < Z.of_nat (rows grid) ∧
  - Z.of_nat (cols grid) ≤ c.2 < Z.of_nat (cols grid).

(** The cell a valid subscript pair designates. *)
Definition wrapped (grid : list (list Z)) (c : cell) : cell :=
  (if decide (0 ≤ c.1) then c.1 else Z.of_nat (rows grid) + c.1,
   if decide (0 ≤ c.2) then c.2 else Z.of_nat (cols grid) + c.2).

(** ** Python subscripts *)

Section Subscripts.
Context {A : Type}.
Implicit Types (l : list A) (i : Z) (n : nat).

Lemma index_Some len i n :
  Py.index len i = Some n → (n < len)%nat.
Proof.
  unfold Py.index. repeat case_decide; intros; simplify_eq; lia.
Qed.

Lemma index_nonneg len i :
  0 ≤ i → Py.index len i = if decide (i < Z.of_nat len) then Some (Z.to_nat i) else None.
Proof.
  intros Hi. unfold Py.index. repeat case_decide; try done; lia.
Qed.

Lemma getitem_Ret l i a :
  Py.getitem l i = Ret a ↔ ∃ n, Py.index (length l) i = Some n ∧ l !! n = Some a.
Proof.
  unfold Py.getitem. destruct (Py.index _ _) as [n|] eqn:Hn.
  - destruct (l !! n) eqn:Hl; split; intros; simplify_eq; eauto;
      destruct H as (? & ? & ?); simplify_eq; done.
  - split; [done | intros (? & ? & ?); done].
Qed.

Lemma getitem_nonneg l i a :
  0 ≤ i → Py.getitem l i = Ret a ↔ l !! Z.to_nat i = Some a.
Proof.
  intros Hi. rewrite getitem_Ret, index_nonneg by done. split.
  - intros (n & Hn & Hl). case_decide; simplify_eq. done.
  - intros Hl. exists (Z.to_nat i). split; [|done].
    apply lookup_lt_Some in Hl. case_decide; [done | lia].
Qed.

Lemma getitem_not_fuel l i : Py.getitem l i ≠ OutOfFuel.
Proof. unfold Py.getitem. repeat case_match; done. Qed.

Lemma getitem_in_range l i :
  0 ≤ i < Z.of_nat (length l) → ∃ a, Py.getitem l i = Ret a.
Proof.
  intros Hi. destruct (lookup_lt_is_Some_2 l (Z.to_nat i)) as [a Ha]; [lia|].
  exists a. apply getitem_nonneg; [lia | done].
Qed.

Lemma setitem_Ret l i a l' :
  Py.setitem l i a = Ret l' ↔
  ∃ n, Py.index (length l) i = Some n ∧ l' = <[n := a]> l.
Proof.
  unfold Py.setitem. destruct (Py.index _ _); split; intros; simplify_eq; eauto;
    destruct H as (? & ? & ?); simplify_eq; done.
Qed.

Lemma setitem_not_fuel l i a : Py.setitem l i a ≠ OutOfFuel.
Proof. unfold Py.setitem. case_match; done. Qed.

Lemma popleft_Some l a r : Py.popleft l = Some (a, r) ↔ l = a :: r.
Proof. destruct l; simpl; split; intros; simplify_eq; done. Qed.

Lemma popleft_None l : Py.popleft l = None ↔ l = [].
Proof. destruct l; simpl; split; intros; simplify_eq; done. Qed.

Lemma pop_Some l a r : Py.pop l = Some (a, r) ↔ l = r ++ [a].
Proof.
  unfold Py.pop. destruct (reverse l) as [|b t] eqn:Hr.
  - apply (f_equal reverse) in Hr. rewrite reverse_involutive in Hr. subst l.
    split; [done|]. intros H. destruct r; done.
  - apply (f_equal reverse) in Hr. rewrite reverse_involutive, reverse_cons in Hr.
    subst l. split.
    + intros; simplify_eq. done.
    + intros H. apply app_inj_tail in H as [-> ->]. done.
Qed.

Lemma pop_None l : Py.pop l = None ↔ l = [].
Proof.
  unfold Py.pop. destruct (reverse l) eqn:Hr.
  - apply (f_equal reverse) in Hr. rewrite reverse_involutive in Hr. by subst.
  - split; [done|]. intros ->. done.
Qed.

End Subscripts.

(** ** The visited matrix *)

Lemma obind_Ret {A B : Type} (m : outcome A) (k : A → outcome B) (b : B) :
  obind m k = Ret b ↔ ∃ a, m = Ret a ∧ k a = Ret b.
Proof.
  destruct m; simpl; split; intros; simplify_eq; eauto;
    destruct H as (? & ? & ?); simplify_eq; done.
Qed.

Lemma obind_fuel {A B : Type} (m : outcome A) (k : A → outcome B) :
  obind m k = OutOfFuel ↔ m = OutOfFuel ∨ ∃ a, m = Ret a ∧ k a = OutOfFuel.
Proof.
  destruct m; simpl; split; intros; simplify_eq; eauto;
    destruct H as [? | (? & ? & ?)]; simplify_eq; done.
Qed.

Lemma getitem_head (grid : list (list Z)) (row0 : list Z) :
  Py.getitem grid 0 = Ret row0 ↔ head grid = Some row0.
Proof.
  rewrite getitem_nonneg by lia. change (Z.to_nat 0) with O.
  by rewrite head_lookup.
Qed.

Lemma is_valid_move_true x y grid v :
  is_valid_move x y grid v = Ret true ↔ free grid (x, y) ∧ flag v (x, y) = Some false.
Proof.
  unfold is_valid_move, free, in_bounds, occupancy, flag, rows, cols. simpl.
  case_bool_decide as Hx; [|split; [done | lia]].
  destruct (Py.getitem grid 0) as [row0| |] eqn:H0; simpl.
  2,3: destruct grid; [simpl in *; lia |]; done.
  apply getitem_head in H0. rewrite H0. simpl.
  case_bool_decide as Hy; [|split; [done | lia]].
  destruct (Py.getitem grid x) as [row| |] eqn:Hrow; simpl.
  2,3: split; [done|]; intros [[_ Hocc] _];
    destruct (grid !! Z.to_nat x) as [r|] eqn:Hr; [|done];
    apply getitem_nonneg in Hr; [congruence | lia].
  apply getitem_nonneg in Hrow; [|lia]. rewrite Hrow. simpl.
  destruct (Py.getitem row y) as [occ| |] eqn:Hocc; simpl.
  2,3: split; [done|]; intros [[_ Ho] _];
    apply getitem_nonneg in Ho; [congruence | lia].
  apply getitem_nonneg in Hocc; [|lia]. rewrite Hocc.
  case_bool_decide as Hz; [subst occ | split; [done | intros [[_ ?] _]; congruence]].
  destruct (Py.getitem v x) as [vrow| |] eqn:Hvrow; simpl.
  2,3: split; [done|]; intros [_ Hf];
    destruct (v !! Z.to_nat x) as [r|] eqn:Hr; [|done];
    apply getitem_nonneg in Hr; [congruence | lia].
  apply getitem_nonneg in Hvrow; [|lia]. rewrite Hvrow. simpl.
  destruct (Py.getitem vrow y) as [b| |] eqn:Hb; simpl.
  2,3: split; [done|]; intros [_ Hf];
    apply getitem_nonneg in Hf; [congruence | lia].
  apply getitem_nonneg in Hb; [|lia]. rewrite Hb.
  destruct b; simpl; split; try done; intros [_ ?]; congruence.
Qed.

Lemma is_valid_move_not_fuel x y grid v : is_valid_move x y grid v ≠ OutOfFuel.
Proof.
  unfold is_valid_move.
  repeat first
    [ case_bool_decide
    | match goal with
      | |- context [Py.getitem ?l ?i] =>
          let H := fresh in
          destruct (Py.getitem l i) eqn:H; simpl;
          [ | | by apply getitem_not_fuel in H]
      end ]; done.
Qed.

Lemma mark_Ret v x y v' :
  mark v x y = Ret v' ↔
  ∃ i j row, Py.index (length v) x = Some i ∧ v !! i = Some row ∧
             Py.index (length row) y = Some j ∧
             v' = <[i := <[j := true]> row]> v.
Proof.
  unfold mark. rewrite obind_Ret. split.
  - intros (row & Hrow & H). apply obind_Ret in H as (row' & Hrow' & H).
    apply getitem_Ret in Hrow as (i & Hi & Hrow).
    apply setitem_Ret in Hrow' as (j & Hj & ->).
    apply setitem_Ret in H as (i' & Hi' & ->).
    rewrite Hi in Hi'. simplify_eq. eauto 10.
  - intros (i & j & row & Hi & Hrow & Hj & ->). exists row. split.
    + apply getitem_Ret. eauto.
    + apply obind_Ret. exists (<[j := true]> row). split; apply setitem_Ret; eauto.
Qed.

Lemma mark_not_fuel v x y : mark v x y ≠ OutOfFuel.
Proof.
  unfold mark. intros H. apply obind_fuel in H as [H | (row & _ & H)].
  - by apply getitem_not_fuel in H.
  - apply obind_fuel in H as [H | (row' & _ & H)]; by apply setitem_not_fuel in H.
Qed.

Lemma mark_nonneg v x y v' :
  0 ≤ x → 0 ≤ y → mark v x y = Ret v' →
  ∃ row, v !! Z.to_nat x = Some row ∧ (Z.to_nat y < length row)%nat ∧
         v' = <[Z.to_nat x := <[Z.to_nat y := true]> row]> v.
Proof.
  intros Hx Hy (i & j & row & Hi & Hrow & Hj & ->)%mark_Ret.
  rewrite index_nonneg in Hi, Hj by done. repeat case_decide; simplify_eq.
  exists row. split_and!; [done | lia | done].
Qed.

Lemma mark_flagged v x y b :
  0 ≤ x → 0 ≤ y → flag v (x, y) = Some b → ∃ v', mark v x y = Ret v'.
Proof.
  unfold flag. simpl. intros Hx Hy Hf.
  destruct (v !! Z.to_nat x) as [row|] eqn:Hrow; [simpl in Hf | done].
  exists (<[Z.to_nat x := <[Z.to_nat y := true]> row]> v).
  apply mark_Ret. exists (Z.to_nat x), (Z.to_nat y), row.
  apply lookup_lt_Some in Hf. pose proof (lookup_lt_Some _ _ _ Hrow).
  rewrite !index_nonneg by done. repeat case_decide; try lia. done.
Qed.

Lemma flag_set v i j row c :
  v !! i = Some row → (j < length row)%nat →
  0 ≤ c.1 → 0 ≤ c.2 →
  flag (<[i := <[j := true]> row]> v) c =
    if decide (c = (Z.of_nat i, Z.of_nat j)) then Some true else flag v c.
Proof.
  intros Hrow Hj Hc1 Hc2. unfold flag. destruct c as [x y]. simpl in *.
  pose proof (lookup_lt_Some _ _ _ Hrow) as Hi.
  destruct (decide (Z.to_nat x = i)) as [<-|Hne].
  - rewrite list_lookup_insert_eq by done. simpl.
    destruct (decide (Z.to_nat y = j)) as [<-|Hne].
    + rewrite list_lookup_insert_eq by done.
      rewrite decide_True; [done | f_equal; lia].
    + rewrite list_lookup_insert_ne by done.
      rewrite decide_False; [by rewrite Hrow | intros [= ? ?]; lia].
  - rewrite list_lookup_insert_ne by done.
    rewrite decide_False; [done | intros [= ? ?]; lia].
Qed.

Lemma flag_mark v x y v' c :
  0 ≤ x → 0 ≤ y → mark v x y = Ret v' → 0 ≤ c.1 → 0 ≤ c.2 →
  flag v' c = if decide (c = (x, y)) then Some true else flag v c.
Proof.
  intros Hx Hy (row & Hrow & Hlt & ->)%mark_nonneg Hc1 Hc2; [|done..].
  rewrite flag_set by done. rewrite !Z2Nat.id by done. done.
Qed.

Lemma unmarked_row_set (r : list bool) (j : nat) :
  r !! j = Some false →
  S (unmarked_row (<[j := true]> r)) = unmarked_row r.
Proof.
  unfold unmarked_row. revert j. induction r as [|b r IH]; intros [|j] H; simplify_eq/=.
  - rewrite (filter_cons_False _ true) by done. done.
  - specialize (IH _ H). destruct b.
    + rewrite !(filter_cons_False _ true) by done. done.
    + rewrite !(filter_cons_True _ false) by done. simpl. by rewrite IH.
Qed.

Lemma unmarked_set (v : list (list bool)) (i : nat) (row row' : list bool) :
  v !! i = Some row → S (unmarked_row row') = unmarked_row row →
  S (unmarked (<[i := row']> v)) = unmarked v.
Proof.
  unfold unmarked. revert i. induction v as [|r v IH]; intros [|i] H Hrow; simplify_eq/=.
  - lia.
  - specialize (IH _ H Hrow). lia.
Qed.

Lemma unmarked_mark v x y v' row j i :
  Py.index (length v) x = Some i → v !! i = Some row →
  Py.index (length row) y = Some j → row !! j = Some false →
  mark v x y = Ret v' → S (unmarked v') = unmarked v.
Proof.
  intros Hi Hrow Hj Hf (i' & j' & row' & Hi' & Hrow' & Hj' & ->)%mark_Ret.
  simplify_eq. eapply unmarked_set; [done|]. by apply unmarked_row_set.
Qed.

Lemma unmarked_mark_nonneg v x y v' :
  0 ≤ x → 0 ≤ y → flag v (x, y) = Some false → mark v x y = Ret v' →
  S (unmarked v') = unmarked v.
Proof.
  intros Hx Hy Hf Hm. unfold flag in Hf. simpl in Hf.
  destruct (v !! Z.to_nat x) as [row|] eqn:Hrow; [simpl in Hf | done].
  pose proof (lookup_lt_Some _ _ _ Hrow). pose proof (lookup_lt_Some _ _ _ Hf).
  eapply (unmarked_mark v x y v' row (Z.to_nat y) (Z.to_nat x)); try done.
  all: rewrite index_nonneg by done; case_decide; [done | lia].
Qed.

Lemma shape_mark n m v x y v' :
  shape n m v → mark v x y = Ret v' → shape n m v'.
Proof.
  intros [Hn Hm] (i & j & row & Hi & Hrow & Hj & ->)%mark_Ret. split.
  - by rewrite length_insert.
  - apply Forall_insert; [done|]. rewrite length_insert.
    by eapply (Forall_lookup_1 _ _ _ _ Hm).
Qed.

Lemma shape_flag n m v c :
  shape n m v → 0 ≤ c.1 < Z.of_nat n → 0 ≤ c.2 < Z.of_nat m → is_Some (flag v c).
Proof.
  intros [Hn Hm] H1 H2. unfold flag.
  destruct (lookup_lt_is_Some_2 v (Z.to_nat c.1)) as [row Hrow]; [lia|].
  rewrite Hrow. simpl. apply lookup_lt_is_Some_2.
  rewrite (Forall_lookup_1 _ _ _ _ Hm Hrow). lia.
Qed.

Lemma unmarked_row_le (r : list bool) : (unmarked_row r ≤ length r)%nat.
Proof. unfold unmarked_row. apply length_filter. Qed.

Lemma unmarked_shape n m v : shape n m v → (unmarked v ≤ n * m)%nat.
Proof.
  intros [<- Hm]. unfold unmarked. induction Hm as [|r v Hr _ IH]; csimpl; [lia|].
  pose proof (unmarked_row_le r). lia.
Qed.

(** ** One neighbour *)

Section Expansion.
Variables (grid : list (list Z)) (v0 : list (list bool)) (start end_ : cell).
Hypothesis open_start : ¬ open grid v0 start.
Variable lay : Prop.

Local Abbreviation tree := (tree grid v0 start).
Local Abbreviation explored := (explored grid v0 end_).
Local Abbreviation layered := (layered grid v0 start).
Local Abbreviation expanding := (expanding grid v0 start end_ lay).
Local Abbreviation handled := (handled grid v0 start lay).
Local Abbreviation open := (open grid v0).

Lemma open_free c : open c → free grid c.
Proof. by intros [? _]. Qed.

Lemma open_nonneg c : open c → 0 ≤ c.1 ∧ 0 ≤ c.2.
Proof. intros [[[? ?] _] _]. lia. Qed.

Lemma step_move u dir : dir ∈ directions → step u (move u dir).
Proof. intros Hd. by exists dir. Qed.

Lemma extends_refl d st : extends d d st st.
Proof. by intros c Hc. Qed.

Lemma extends_trans d1 d2 d3 st1 st2 st3 :
  extends d1 d2 st1 st2 → extends d2 d3 st2 st3 → extends d1 d3 st1 st3.
Proof.
  intros H12 H23 c Hc. destruct (H12 c Hc) as [Hc2 E2].
  destruct (H23 c Hc2) as [Hc3 E3]. split; [done | congruence].
Qed.

Lemma handled_extends d d' u st st' w :
  known st u → extends d d' st st' → handled d u st w → handled d' u st' w.
Proof.
  intros Hu Hext Hh Hw. destruct (Hh Hw) as [Hk Hd].
  destruct (Hext w Hk) as [Hk' Ew]. destruct (Hext u Hu) as [_ Eu].
  split; [done | rewrite Ew, Eu; done].
Qed.

(** A neighbour that [is_valid_move] rejects. *)
Lemma visit_known d u st w :
  expanding d u st → ¬ (free grid w ∧ flag (visited st) w = Some false) →
  handled d u st w.
Proof.
  intros (Ht & Hu & Hex & Hlay) Hno Hw.
  assert (known st w) as Hk.
  { destruct Hw as [Hw | ->]; [|unfold known; by rewrite (tree_root _ _ _ _ _ Ht)].
    destruct (parent st !! w) as [p|] eqn:Hp; [unfold known; by rewrite Hp|].
    destruct Hno. split; [by apply open_free|].
    apply (tree_flag _ _ _ _ _ Ht); [by apply open_free | done]. }
  split; [done|]. intros L. specialize (Hlay L).
  destruct (layered_closed _ _ _ _ _ _ _ Hlay w Hk) as [Hf | [Hc | [Hle _]]].
  - apply (layered_range _ _ _ _ _ _ _ Hlay) in Hf. lia.
  - simplify_eq. lia.
  - lia.
Qed.

(** A neighbour that [is_valid_move] accepts. *)
Lemma visit_fresh d u st dir vis' :
  let w := move u dir in
  let d' := fun c => if decide (c = w) then S (d u) else d c in
  let st' := State (frontier st ++ [w]) vis' (<[w := Some u]> (parent st)) in
  expanding d u st → dir ∈ directions →
  free grid w → flag (visited st) w = Some false →
  mark (visited st) w.1 w.2 = Ret vis' →
  expanding d' u st' ∧ extends d d' st st' ∧ handled d' u st' w.
Proof.
  intros w d' st' (Ht & Hu & Hex & Hlay) Hdir Hfree Hflag Hmark.
  destruct (proj1 (tree_flag _ _ _ _ _ Ht w Hfree) Hflag) as [Hopen Hnew].
  assert (Hws : w ≠ start) by (intros E; rewrite E in Hopen; done).
  assert (Hwu : w ≠ u).
  { intros E. destruct Hu as [? Hu]. rewrite <- E in Hu. congruence. }
  assert (Hold : ∀ c, known st c → c ≠ w).
  { intros c [? Hc] ->. congruence. }
  assert (Hd' : ∀ c, known st c → d' c = d c).
  { intros c Hc. unfold d'. rewrite decide_False; [done | by apply Hold]. }
  assert (Hk' : ∀ c, known st' c ↔ c = w ∨ known st c).
  { intros c. unfold known, st'. simpl. destruct (decide (c = w)) as [->|Hne].
    - rewrite lookup_insert_eq. naive_solver.
    - rewrite lookup_insert_ne by done. naive_solver. }
  assert (Hdw : d' w = S (d u)) by (unfold d'; by rewrite decide_True).
  assert (Hdu : d' u = d u) by by apply Hd'.
  assert (Hext : extends d d' st st').
  { intros c Hc. split; [apply Hk'; by right | by apply Hd']. }
  split_and!; [split_and! | done | ].
  - (* tree *)
    split; simpl.
    + rewrite lookup_insert_ne by done. apply Ht.
    + rewrite Hd'; [apply Ht | unfold known; by rewrite (tree_root _ _ _ _ _ Ht)].
    + intros c Hc. destruct (decide (c = w)) as [->|Hne].
      * rewrite lookup_insert_eq in Hc. done.
      * rewrite lookup_insert_ne in Hc by done. by apply Ht.
    + intros c p Hc. destruct (decide (c = w)) as [->|Hne].
      * rewrite lookup_insert_eq in Hc. simplify_eq.
        split_and!; [done | by apply step_move | apply Hk'; by right | congruence].
      * rewrite lookup_insert_ne in Hc by done.
        destruct (tree_edge _ _ _ _ _ Ht c p Hc) as (? & ? & Hp & Hdc).
        split_and!; [done | done | apply Hk'; by right |].
        rewrite (Hd' p Hp). unfold d'. by rewrite decide_False.
    + intros c Hc.
      assert (0 ≤ c.1 ∧ 0 ≤ c.2) as [? ?] by (destruct Hc as [[? ?] _]; lia).
      assert (0 ≤ w.1 ∧ 0 ≤ w.2) as [? ?] by (by apply open_nonneg).
      rewrite (flag_mark (visited st) w.1 w.2 vis' c) by done.
      replace (w.1, w.2) with w by by destruct w.
      destruct (decide (c = w)) as [->|Hne].
      * rewrite decide_True by done. rewrite lookup_insert_eq.
        split; [done | intros [_ ?]; done].
      * rewrite decide_False by done. rewrite lookup_insert_ne by done. by apply Ht.
    + intros c [Hc | ->%list_elem_of_singleton]%elem_of_app; apply Hk'.
      * right. by apply Ht.
      * by left.
    + intros c Hc. rewrite map_size_insert_None by done.
      apply Hk' in Hc as [-> | Hc].
      * rewrite Hdw. pose proof (tree_depth _ _ _ _ _ Ht u Hu). lia.
      * rewrite Hd' by done. pose proof (tree_depth _ _ _ _ _ Ht c Hc). lia.
  - apply Hk'. by right.
  - (* explored *)
    intros c [-> | Hc]%Hk'; [left; apply elem_of_app; right; by left |].
    destruct (Hex c Hc) as [Hf | [Hcur | [Hne Hcl]]].
    + left. apply elem_of_app. by left.
    + by right; left.
    + right; right. split; [done|]. intros x Hx Ho. apply Hk'. right. by apply Hcl.
  - (* layered *)
    intros L. specialize (Hlay L). rewrite Hdu. split; simpl.
    + intros i j a b Hij Ha Hb.
      assert (Hin : ∀ k c, frontier st !! k = Some c → d' c = d c ∧ (d c ≤ S (d u))%nat).
      { intros k c Hc. apply list_elem_of_lookup_2 in Hc.
        split; [apply Hd'; by apply Ht |].
        apply (layered_range _ _ _ _ _ _ _ Hlay) in Hc. lia. }
      destruct (decide (j < length (frontier st))%nat) as [Hj|Hj].
      * rewrite lookup_app_l in Ha, Hb by lia.
        destruct (Hin _ _ Ha) as [-> _]. destruct (Hin _ _ Hb) as [-> _].
        exact (layered_sorted _ _ _ _ _ _ _ Hlay i j a b Hij Ha Hb).
      * rewrite lookup_app_r in Hb by lia.
        apply list_lookup_singleton_Some in Hb as [_ <-]. rewrite Hdw.
        destruct (decide (i < length (frontier st))%nat) as [Hi|Hi].
        -- rewrite lookup_app_l in Ha by lia. destruct (Hin _ _ Ha) as [-> ?]. done.
        -- rewrite lookup_app_r in Ha by lia.
           apply list_lookup_singleton_Some in Ha as [_ <-]. rewrite Hdw. done.
    + intros c [Hc | ->%list_elem_of_singleton]%elem_of_app.
      * rewrite Hd' by by apply Ht. by apply (layered_range _ _ _ _ _ _ _ Hlay).
      * rewrite Hdw. lia.
    + intros c [-> | Hc]%Hk'; [left; apply elem_of_app; right; by left |].
      destruct (layered_closed _ _ _ _ _ _ _ Hlay c Hc) as [Hf | [Hcur | [Hle Hcl]]].
      * left. apply elem_of_app. by left.
      * by right; left.
      * right; right. rewrite Hd' by done. split; [done|].
        intros x Hx Ho. destruct (Hcl x Hx Ho) as [Hkx Hdx].
        split; [apply Hk'; by right | by rewrite Hd'].
  - (* handled *)
    intros _. split; [apply Hk'; by left |]. intros _. rewrite Hdw, Hdu. done.
Qed.

Lemma visit_expanding d u st dir st' :
  expanding d u st → dir ∈ directions → visit grid u st dir = Ret st' →
  ∃ d', expanding d' u st' ∧ extends d d' st st' ∧ handled d' u st' (move u dir).
Proof.
  intros Hexp Hdir Hv. unfold visit in Hv. apply obind_Ret in Hv as (ok & Hok & Hv).
  destruct ok.
  - apply obind_Ret in Hv as (vis' & Hm & [= <-]).
    apply is_valid_move_true in Hok as [Hf Hfl].
    eexists. by apply (visit_fresh d u st dir vis').
  - injection Hv as <-. exists d. split_and!; [done | apply extends_refl |].
    apply visit_known; [done|]. intros H%is_valid_move_true. congruence.
Qed.

(** What a step leaves unchanged: the cells not yet known plus the
    cells not yet marked, and likewise with the frontier. *)
Lemma visit_measure d u st dir st' :
  tree d st → visit grid u st dir = Ret st' →
  (size (parent st') + unmarked (visited st') =
     size (parent st) + unmarked (visited st))%nat ∧
  (length (frontier st') + unmarked (visited st') =
     length (frontier st) + unmarked (visited st))%nat.
Proof.
  intros Ht Hv. unfold visit in Hv. apply obind_Ret in Hv as (ok & Hok & Hv).
  destruct ok; [|by injection Hv as <-].
  apply obind_Ret in Hv as (vis' & Hm & [= <-]). simpl.
  apply is_valid_move_true in Hok as [Hf Hfl].
  destruct (proj1 (tree_flag _ _ _ _ _ Ht _ Hf) Hfl) as [_ Hnew].
  assert (0 ≤ u.1 + dir.1 ∧ 0 ≤ u.2 + dir.2) as [? ?]
    by (destruct Hf as [[? ?] _]; simpl in *; lia).
  pose proof (unmarked_mark_nonneg (visited st) (u.1 + dir.1) (u.2 + dir.2) vis'
    ltac:(done) ltac:(done) Hfl Hm).
  rewrite map_size_insert_None by done. rewrite length_app. simpl. lia.
Qed.

Lemma visit_shape n m u st dir st' :
  shape n m (visited st) → visit grid u st dir = Ret st' → shape n m (visited st').
Proof.
  intros Hs Hv. unfold visit in Hv. apply obind_Ret in Hv as (ok & Hok & Hv).
  destruct ok; [|by injection Hv as <-].
  apply obind_Ret in Hv as (vis' & Hm & [= <-]). simpl. by eapply shape_mark.
Qed.

Lemma visit_not_fuel u st dir : visit grid u st dir ≠ OutOfFuel.
Proof.
  unfold visit. intros [H | (ok & _ & H)]%obind_fuel.
  - by apply is_valid_move_not_fuel in H.
  - destruct ok; [|done]. apply obind_fuel in H as [H | (? & _ & ?)]; [|done].
    by apply mark_not_fuel in H.
Qed.

Lemma for_each_not_fuel u ds st : for_each grid u ds st ≠ OutOfFuel.
Proof.
  revert st. induction ds as [|dir ds IH]; intros st; simpl; [done|].
  intros [H | (st' & _ & H)]%obind_fuel.
  - by apply visit_not_fuel in H.
  - by apply IH in H.
Qed.

Lemma for_each_expanding u ds : ∀ d st st',
  expanding d u st → (∀ dir, dir ∈ ds → dir ∈ directions) →
  for_each grid u ds st = Ret st' →
  ∃ d', expanding d' u st' ∧ extends d d' st st' ∧
        (∀ dir, dir ∈ ds → handled d' u st' (move u dir)) ∧
        (size (parent st') + unmarked (visited st') =
           size (parent st) + unmarked (visited st))%nat ∧
        (length (frontier st') + unmarked (visited st') =
           length (frontier st) + unmarked (visited st))%nat.
Proof.
  induction ds as [|dir ds IH]; intros d st st' Hexp Hds Hf; simpl in Hf.
  - injection Hf as <-. exists d. split_and!; try done.
    intros dir Hd. by apply elem_of_nil in Hd.
  - apply obind_Ret in Hf as (st1 & Hv & Hf).
    destruct (visit_expanding d u st dir st1 Hexp) as (d1 & Hexp1 & Hext1 & Hh1);
      [apply Hds; by left | done |].
    destruct (visit_measure d u st dir st1) as [Hm1 Hm2]; [apply Hexp | done |].
    destruct (IH d1 st1 st' Hexp1) as (d2 & Hexp2 & Hext2 & Hh2 & Hm3 & Hm4);
      [intros; apply Hds; by right | done |].
    exists d2. split_and!; [done | by eapply extends_trans | | lia | lia].
    intros x [-> | Hx]%elem_of_cons; [|by apply Hh2].
    eapply handled_extends; [apply Hexp1 | done | done].
Qed.

Lemma for_each_shape n m u ds : ∀ st st',
  shape n m (visited st) → for_each grid u ds st = Ret st' → shape n m (visited st').
Proof.
  induction ds as [|dir ds IH]; intros st st' Hs Hf; simpl in Hf.
  - by injection Hf as <-.
  - apply obind_Ret in Hf as (st1 & Hv & Hf).
    eapply IH; [|done]. by eapply visit_shape.
Qed.

(** On a rectangular grid no subscript of the loop body is out of range. *)
Lemma is_valid_move_total x y v :
  rectangular grid → shape (rows grid) (cols grid) v →
  ∃ b, is_valid_move x y grid v = Ret b.
Proof.
  intros Hrect [Hn Hm]. unfold is_valid_move, rows, cols in *.
  case_bool_decide as Hx; [|by eexists].
  destruct (getitem_in_range grid 0) as [row0 H0]; [lia|]. rewrite H0. simpl.
  apply getitem_head in H0 as Hhead. rewrite Hhead in *. simpl in *.
  case_bool_decide as Hy; [|by eexists].
  destruct (getitem_in_range grid x) as [row Hrow]; [lia|]. rewrite Hrow. simpl.
  assert (length row = length row0) as Hlen.
  { apply getitem_nonneg in Hrow; [|lia].
    unfold rectangular, cols in Hrect. rewrite Hhead in Hrect.
    by apply (Forall_lookup_1 _ _ _ _ Hrect Hrow). }
  destruct (getitem_in_range row y) as [occ Hocc]; [lia|]. rewrite Hocc. simpl.
  case_bool_decide; [|by eexists].
  destruct (getitem_in_range v x) as [vrow Hvrow]; [lia|]. rewrite Hvrow. simpl.
  assert (length vrow = length row0) as Hvlen.
  { apply getitem_nonneg in Hvrow; [|lia]. by apply (Forall_lookup_1 _ _ _ _ Hm Hvrow). }
  destruct (getitem_in_range vrow y) as [b Hb]; [lia|]. rewrite Hb. simpl.
  by eexists.
Qed.

Lemma visit_total u st dir :
  rectangular grid → shape (rows grid) (cols grid) (visited st) →
  ∃ st', visit grid u st dir = Ret st'.
Proof.
  intros Hrect Hs. unfold visit.
  destruct (is_valid_move_total (u.1 + dir.1) (u.2 + dir.2) (visited st) Hrect Hs)
    as [ok Hok].
  rewrite Hok. simpl. destruct ok; [|by eexists].
  apply is_valid_move_true in Hok as [Hf Hfl].
  destruct (mark_flagged (visited st) (u.1 + dir.1) (u.2 + dir.2) false) as [v' Hv'];
    [destruct Hf as [[? ?] _]; simpl in *; lia .. | done |].
  rewrite Hv'. simpl. by eexists.
Qed.

Lemma for_each_total u ds : ∀ st,
  rectangular grid → shape (rows grid) (cols grid) (visited st) →
  ∃ st', for_each grid u ds st = Ret st'.
Proof.
  induction ds as [|dir ds IH]; intros st Hrect Hs; simpl; [by eexists|].
  destruct (visit_total u st dir Hrect Hs) as [st1 H1]. rewrite H1. simpl.
  apply IH; [done|]. by eapply visit_shape.
Qed.

End Expansion.

(** ** The exceptions a step can raise *)

Lemma obind_Raise {A B : Type} (m : outcome A) (k : A → outcome B) (e : exn) :
  obind m k = Raise e ↔ m = Raise e ∨ ∃ a, m = Ret a ∧ k a = Raise e.
Proof.
  destruct m; simpl; split; intros; simplify_eq; eauto;
    destruct H as [? | (? & ? & ?)]; simplify_eq; done.
Qed.

Lemma getitem_raise {A : Type} (l : list A) (i : Z) (e : exn) :
  Py.getitem l i = Raise e → e = IndexError.
Proof. unfold Py.getitem. repeat case_match; congruence. Qed.

Lemma setitem_raise {A : Type} (l : list A) (i : Z) (a : A) (e : exn) :
  Py.setitem l i a = Raise e → e = IndexError.
Proof. unfold Py.setitem. case_match; congruence. Qed.

Lemma is_valid_move_raise x y grid v e :
  is_valid_move x y grid v = Raise e → e = IndexError.
Proof.
  unfold is_valid_move. intros H.
  repeat first
    [ case_bool_decide; [|done]
    | apply obind_Raise in H as [H | (? & _ & H)]; [by apply getitem_raise in H |] ].
  done.
Qed.

Lemma mark_raise v x y e : mark v x y = Raise e → e = IndexError.
Proof.
  unfold mark. intros [H | (row & _ & H)]%obind_Raise; [by apply getitem_raise in H|].
  apply obind_Raise in H as [H | (row' & _ & H)]; by apply setitem_raise in H.
Qed.

Lemma visit_raise grid u st dir e : visit grid u st dir = Raise e → e = IndexError.
Proof.
  unfold visit. intros [H | (ok & _ & H)]%obind_Raise.
  - by apply is_valid_move_raise in H.
  - destruct ok; [|done]. apply obind_Raise in H as [H | (? & _ & ?)]; [|done].
    by apply mark_raise in H.
Qed.

Lemma for_each_raise grid u ds e : ∀ st,
  for_each grid u ds st = Raise e → e = IndexError.
Proof.
  induction ds as [|dir ds IH]; intros st; simpl; [done|].
  intros [H | (st' & _ & H)]%obind_Raise.
  - by apply visit_raise in H.
  - by apply IH in H.
Qed.

(** ** Paths *)

Lemma steps_snoc (l : list cell) (c : cell) :
  steps (l ++ [c]) ↔ steps l ∧ ∀ u, last l = Some u → step u c.
Proof.
  induction l as [|a l IH]; simpl.
  - split; [intros _; split; [done | intros ? [=]] | done].
  - destruct l as [|b l]; simpl in *.
    + split.
      * intros [H _]. split; [done | by intros ? [= <-]].
      * intros [_ H]. split; [by apply H | done].
    + rewrite IH. naive_solver.
Qed.

Lemma steps_cons (a b : cell) (l : list cell) :
  steps (a :: b :: l) ↔ step a b ∧ steps (b :: l).
Proof. done. Qed.

Lemma walk_back_trail par c l :
  trail par c l → ∀ fuel acc, (length l ≤ fuel)%nat →
  walk_back fuel par (Some c) acc = Ret (acc ++ reverse l).
Proof.
  induction 1 as [c Hc | c u l Hc Hl IH]; intros fuel acc Hlen.
  - destruct fuel as [|fuel]; simpl in *; [lia|]. rewrite Hc. by destruct fuel.
  - rewrite length_app in Hlen. destruct fuel as [|fuel]; simpl in *; [lia|].
    rewrite Hc. rewrite IH by lia. by rewrite reverse_app, <- app_assoc.
Qed.

Lemma walk_back_mono par fuel : ∀ fuel' cur acc r,
  walk_back fuel par cur acc = Ret r → (fuel ≤ fuel')%nat →
  walk_back fuel' par cur acc = Ret r.
Proof.
  induction fuel as [|fuel IH]; intros fuel' [c|] acc r H Hle; simpl in *;
    try done; try (by destruct fuel').
  destruct fuel' as [|fuel']; [lia|]. simpl.
  destruct (par !! c) as [p|]; [|done]. apply IH; [done | lia].
Qed.

Lemma reconstruct_trail par c l budget :
  trail par c l → (length l ≤ budget)%nat → reconstruct budget par c = Ret l.
Proof.
  intros Hl Hlen. unfold reconstruct. rewrite (walk_back_trail par c l) by done.
  simpl. by rewrite reverse_involutive.
Qed.

Lemma walk_back_short par c l :
  trail par c l → ∀ fuel acc, (fuel < length l)%nat →
  walk_back fuel par (Some c) acc = OutOfFuel.
Proof.
  induction 1 as [c Hc | c u l Hc Hl IH]; intros fuel acc Hlen.
  - destruct fuel as [|fuel]; simpl in *; [done | lia].
  - rewrite length_app in Hlen. destruct fuel as [|fuel]; simpl in *; [done|].
    rewrite Hc. apply IH. lia.
Qed.

Section Trails.
Variables (grid : list (list Z)) (v0 : list (list bool)) (start : cell).
Variables (d : cell → nat) (st : state).
Hypothesis Ht : tree grid v0 start d st.

Lemma trail_exists n : ∀ c, d c = n → known st c →
  ∃ l, trail (parent st) c l.
Proof.
  induction n as [|n IH]; intros c Hd [[p|] Hp].
  - destruct (tree_edge _ _ _ _ _ Ht c p Hp) as (_ & _ & _ & ?). lia.
  - exists [c]. by constructor.
  - destruct (tree_edge _ _ _ _ _ Ht c p Hp) as (_ & _ & Hk & E).
    destruct (IH p) as [l Hl]; [lia | done |].
    exists (l ++ [c]). by econstructor.
  - exists [c]. by constructor.
Qed.

Lemma trail_spec c l :
  trail (parent st) c l →
  head l = Some start ∧ last l = Some c ∧ steps l ∧
  Forall (open grid v0) (tail l) ∧ length l = S (d c) ∧
  ∀ i x, l !! i = Some x → known st x ∧ d x = i.
Proof.
  induction 1 as [c Hc | c u l Hc Hl IH].
  - apply (tree_none _ _ _ _ _ Ht) in Hc as Hs. subst c.
    rewrite (tree_root_depth _ _ _ _ _ Ht). split_and!; try done.
    intros [|i] x Hx; simplify_eq/=. split; [by eexists|].
    apply (tree_root_depth _ _ _ _ _ Ht).
  - destruct IH as (Hh & Hla & Hs & Ho & Hn & Hi).
    destruct (tree_edge _ _ _ _ _ Ht c u Hc) as (Hoc & Hst & Hk & E).
    destruct l as [|a l]; [done|]. split_and!.
    + done.
    + by rewrite last_snoc.
    + apply steps_snoc. split; [done|]. intros ? ?. by simplify_eq.
    + simpl. apply Forall_app. split; [done | by constructor].
    + rewrite length_app. simpl in *. lia.
    + intros i x Hx. destruct (decide (i < length (a :: l))%nat) as [Hlt|Hge].
      * rewrite lookup_app_l in Hx by done. by apply Hi.
      * rewrite lookup_app_r in Hx by lia.
        apply list_lookup_singleton_Some in Hx as [Hz <-].
        split; [by eexists|]. simpl in *. lia.
Qed.

Lemma trail_found c l :
  trail (parent st) c l → found grid v0 start c l ∧ length l = S (d c).
Proof.
  intros (Hh & Hla & Hs & Ho & Hn & Hi)%trail_spec. split; [|done].
  split_and!; try done. apply NoDup_alt. intros i j x Hx Hy.
  destruct (Hi _ _ Hx) as [_ <-]. by destruct (Hi _ _ Hy) as [_ <-].
Qed.

Lemma reconstruct_found budget c :
  known st c → (size (parent st) ≤ budget)%nat →
  ∃ p, reconstruct budget (parent st) c = Ret p ∧
       found grid v0 start c p ∧ length p = S (d c).
Proof.
  intros Hk Hb. destruct (trail_exists (d c) c eq_refl Hk) as [l Hl].
  destruct (trail_found c l Hl) as [Hf Hn]. exists l. split; [|done].
  apply reconstruct_trail; [done|].
  pose proof (tree_depth _ _ _ _ _ Ht c Hk). lia.
Qed.

Lemma reconstruct_sound budget c p :
  known st c → reconstruct budget (parent st) c = Ret p →
  found grid v0 start c p ∧ length p = S (d c).
Proof.
  intros Hk Hr. destruct (trail_exists (d c) c eq_refl Hk) as [l Hl].
  destruct (trail_found c l Hl) as [Hf Hn].
  unfold reconstruct in Hr. apply obind_Ret in Hr as (r & Hr & [= <-]).
  apply (walk_back_mono _ _ (max budget (length l))) in Hr; [|lia].
  rewrite (walk_back_trail _ c l Hl) in Hr by lia. injection Hr as <-.
  simpl. by rewrite reverse_involutive.
Qed.

Lemma reconstruct_not_raise budget c e :
  known st c → reconstruct budget (parent st) c ≠ Raise e.
Proof.
  intros Hk. destruct (trail_exists (d c) c eq_refl Hk) as [l Hl].
  destruct (decide (length l ≤ budget)%nat) as [Hle | Hgt].
  - by rewrite (reconstruct_trail _ c l budget Hl Hle).
  - unfold reconstruct. rewrite (walk_back_short _ c l Hl) by lia. done.
Qed.

End Trails.

(** ** The loop of a search *)

Section Loop.
Variables (grid : list (list Z)) (v0 : list (list bool)) (start end_ : cell).
Hypothesis open_start : ¬ open grid v0 start.
Variable lay : Prop.
Variable take : list cell → option (cell * list cell).
Hypothesis take_None : ∀ l, take l = None → l = [].
Hypothesis take_Some : ∀ l u rest, take l = Some (u, rest) → l ≡ₚ u :: rest.
Hypothesis take_lay : lay → ∀ l u rest, take l = Some (u, rest) → l = u :: rest.

Local Abbreviation tree := (tree grid v0 start).
Local Abbreviation explored := (explored grid v0 end_).
Local Abbreviation layered := (layered grid v0 start).
Local Abbreviation expanding := (expanding grid v0 start end_ lay).
Local Abbreviation handled := (handled grid v0 start lay).
Local Abbreviation loop_inv := (loop_inv grid v0 start end_ lay).
Local Abbreviation open := (open grid v0).
Local Abbreviation open_route := (open_route grid v0 start end_).
Local Abbreviation found := (found grid v0 start end_).

Lemma expanding_start d u rest st :
  loop_inv d st → take (frontier st) = Some (u, rest) →
  expanding d u (State rest (visited st) (parent st)).
Proof.
  intros (Ht & Hex & Hlay) Htake. pose proof (take_Some _ _ _ Htake) as Hperm.
  assert (Hin : ∀ c, c ∈ frontier st ↔ c = u ∨ c ∈ rest).
  { intros c. rewrite Hperm. apply elem_of_cons. }
  split_and!.
  - destruct Ht. split; simpl; try done.
    intros c Hc. apply tree_frontier0, Hin. by right.
  - apply Ht, Hin. by left.
  - intros c Hc. destruct (Hex c Hc) as [[-> | Hf]%Hin | [? | ?]]; try done.
    + by right; left.
    + by left.
    + by right; right.
  - intros L. specialize (take_lay L _ _ _ Htake) as Hfr.
    specialize (Hlay L u). rewrite Hfr in Hlay. specialize (Hlay eq_refl).
    destruct Hlay as [Hso Hra Hcl]. rewrite Hfr in *. split; simpl.
    + intros i j a b Hij Ha Hb. by apply (Hso (S i) (S j) a b); [lia | |].
    + intros c Hc. apply Hra. by right.
    + intros c Hc. destruct (Hcl c Hc) as [[-> | Hf]%elem_of_cons | [? | ?]]; try done.
      * by right; left.
      * by left.
      * by right; right.
Qed.

Lemma expanding_done d u st :
  expanding d u st → u ≠ end_ →
  (∀ dir, dir ∈ directions → handled d u st (move u dir)) →
  loop_inv d st.
Proof.
  intros (Ht & Hu & Hex & Hlay) Hne Hh. split_and!; [done | |].
  - intros c Hc. destruct (Hex c Hc) as [? | [[= <-] | ?]]; [by left | | by right; right].
    right; right. split; [done|]. intros w (dir & Hdir & ->) Hw.
    apply (Hh dir Hdir). by left.
  - intros L h Hhd. specialize (Hlay L). destruct Hlay as [Hso Hra Hcl].
    assert (h ∈ frontier st) as Hhin.
    { destruct (frontier st); simplify_eq/=. by left. }
    pose proof (Hra h Hhin) as Hrh. split.
    + done.
    + intros c Hc. pose proof (Hra c Hc).
      apply list_elem_of_lookup in Hc as [k Hk].
      assert (frontier st !! O = Some h) as H0 by by rewrite <- head_lookup.
      pose proof (Hso O k h c ltac:(lia) H0 Hk). lia.
    + intros c Hc. destruct (Hcl c Hc) as [? | [[= <-] | [Hle Hnb]]]; [by left | |].
      * right; right. split; [lia|]. intros w (dir & Hdir & ->) Hw.
        destruct (Hh dir Hdir Hw) as [? Hd]. split; [done | by apply Hd].
      * right; right. split; [lia | done].
Qed.

(** One iteration that does not end the search. *)
Lemma iteration d u rest st st' :
  loop_inv d st → take (frontier st) = Some (u, rest) → u ≠ end_ →
  for_each grid u directions (State rest (visited st) (parent st)) = Ret st' →
  ∃ d', loop_inv d' st' ∧
        (size (parent st') + unmarked (visited st') =
           size (parent st) + unmarked (visited st))%nat ∧
        (S (length (frontier st') + unmarked (visited st')) =
           length (frontier st) + unmarked (visited st))%nat.
Proof.
  intros Hinv Htake Hne Hfor.
  pose proof (expanding_start d u rest st Hinv Htake) as Hexp.
  destruct (for_each_expanding grid v0 start end_ open_start lay u directions
              d _ st' Hexp) as (d' & Hexp' & _ & Hh & Hm1 & Hm2); [done | done |].
  exists d'. split_and!.
  - by apply (expanding_done d' u st').
  - done.
  - simpl in Hm2. rewrite (take_Some _ _ _ Htake). simpl. lia.
Qed.

(** Every route from a known cell stays among the known cells, once the
    frontier is empty. *)
Lemma explored_route d st :
  loop_inv d st → frontier st = [] →
  ∀ q u t, known st u → steps (u :: q) →
    Forall (fun c => open c ∨ c = start) q → last (u :: q) = Some t → known st t.
Proof.
  intros (Ht & Hex & _) Hfr. induction q as [|w q IH]; intros u t Hu Hs Ho Hl.
  - simpl in Hl. by simplify_eq.
  - apply steps_cons in Hs as [Huw Hs]. inversion Ho as [|? ? How Ho']; subst.
    apply (IH w); try done.
    destruct How as [How | ->]; [|unfold known; by rewrite (tree_root _ _ _ _ _ Ht)].
    destruct (Hex u Hu) as [Hf | [? | [_ Hcl]]]; [|done|by apply Hcl].
    rewrite Hfr in Hf. by apply elem_of_nil in Hf.
Qed.

Lemma no_route d st :
  loop_inv d st → frontier st = [] → ∀ q, ¬ open_route q.
Proof.
  intros Hinv Hfr q (Hh & Hl & Hs & Ho). destruct q as [|a q]; [done|].
  simpl in Hh, Ho. simplify_eq.
  assert (known st end_) as Hk.
  { apply (explored_route d st Hinv Hfr q start end_); try done.
    unfold known. destruct Hinv as (Ht & _). by rewrite (tree_root _ _ _ _ _ Ht). }
  destruct Hinv as (_ & Hex & _).
  destruct (Hex end_ Hk) as [Hf | [? | [? _]]]; try done.
  rewrite Hfr in Hf. by apply elem_of_nil in Hf.
Qed.

(** Along a route from a known cell, either a cell of the queue is met
    no later than its depth, or the whole route is known and its end is
    no deeper than the route is long. *)
Lemma layered_progress d n st :
  tree d st → layered d n None st →
  ∀ q u, known st u → steps (u :: q) →
    Forall (fun c => open c ∨ c = start) q →
    (∃ c, c ∈ frontier st ∧ (d c ≤ d u + length q)%nat) ∨
    (∃ t, last (u :: q) = Some t ∧ known st t ∧ (d t ≤ d u + length q)%nat).
Proof.
  intros Ht [Hso Hra Hcl]. induction q as [|w q IH]; intros u Hu Hs Ho.
  - right. exists u. simpl. split_and!; [done | done | lia].
  - apply steps_cons in Hs as [Huw Hs]. inversion Ho as [|? ? How Ho']; subst.
    destruct (Hcl u Hu) as [Hf | [? | [_ Hnb]]]; [|done|].
    + left. exists u. split; [done | lia].
    + destruct (Hnb w Huw How) as [Hkw Hdw].
      destruct (IH w Hkw Hs Ho') as [(c & Hc & Hle) | (t & Hl & Hkt & Hle)].
      * left. exists c. split; [done | simpl; lia].
      * right. exists t. split_and!; [done | done | simpl; lia].
Qed.

Lemma shortest d st rest :
  lay → loop_inv d st → take (frontier st) = Some (end_, rest) →
  ∀ q, open_route q → (S (d end_) ≤ length q)%nat.
Proof.
  intros L (Ht & Hex & Hlay) Htake q (Hh & Hl & Hs & Ho).
  pose proof (take_lay L _ _ _ Htake) as Hfr.
  specialize (Hlay L end_). rewrite Hfr in Hlay. specialize (Hlay eq_refl).
  destruct q as [|a q]; [done|]. simpl in Hh, Ho. simplify_eq.
  assert (known st start) as Hk
    by (unfold known; by rewrite (tree_root _ _ _ _ _ Ht)).
  destruct (layered_progress d (d end_) st Ht Hlay q start Hk Hs Ho)
    as [(c & Hc & Hle) | (t & Hlt & Hkt & Hle)];
    rewrite (tree_root_depth _ _ _ _ _ Ht) in Hle; simpl in *.
  - apply (layered_range _ _ _ _ _ _ _ Hlay) in Hc. lia.
  - rewrite Hl in Hlt. simplify_eq. lia.
Qed.

(** Partial correctness of the loop. *)
Lemma search_loop_sound budget fuel : ∀ d st p,
  loop_inv d st → search_loop take fuel budget grid end_ st = Ret p →
  (p = [] ∧ ∀ q, ¬ open_route q) ∨
  (found p ∧ (lay → ∀ q, open_route q → (length p ≤ length q)%nat)).
Proof.
  induction fuel as [|fuel IH]; intros d st p Hinv Hrun; cbn [search_loop] in Hrun;
    destruct (take (frontier st)) as [[u rest]|] eqn:Htake; try done.
  1,3: injection Hrun as <-; left; split; [done|];
       apply (no_route d st Hinv); by apply take_None.
  case_decide as Hu.
  - subst u. right.
    assert (known st end_) as Hk.
    { destruct Hinv as (Ht & _). apply Ht. rewrite (take_Some _ _ _ Htake). by left. }
    destruct (reconstruct_sound grid v0 start d st (proj1 Hinv) budget end_ p Hk Hrun)
      as [Hf Hlen].
    split; [done|]. intros L q Hq. rewrite Hlen.
    by apply (shortest d st rest).
  - apply obind_Ret in Hrun as (st' & Hfor & Hrun).
    destruct (iteration d u rest st st' Hinv Htake Hu Hfor) as (d' & Hinv' & _).
    by apply (IH d' st').
Qed.

(** Termination of the loop, and its result on a rectangular grid. *)
Lemma search_loop_total budget fuel : ∀ d st,
  loop_inv d st →
  (length (frontier st) + unmarked (visited st) ≤ fuel)%nat →
  (size (parent st) + unmarked (visited st) ≤ budget)%nat →
  search_loop take fuel budget grid end_ st ≠ OutOfFuel ∧
  (rectangular grid → shape (rows grid) (cols grid) (visited st) →
   ∃ p, search_loop take fuel budget grid end_ st = Ret p).
Proof.
  induction fuel as [|fuel IH]; intros d st Hinv Hfuel Hbud; cbn [search_loop];
    destruct (take (frontier st)) as [[u rest]|] eqn:Htake; try (by eauto).
  - apply take_Some in Htake. rewrite Htake in Hfuel. simpl in Hfuel. lia.
  - case_decide as Hu.
    + assert (known st u) as Hk.
      { destruct Hinv as (Ht & _). apply Ht. rewrite (take_Some _ _ _ Htake). by left. }
      destruct (reconstruct_found grid v0 start d st (proj1 Hinv) budget u Hk)
        as (p & Hp & _); [lia|].
      rewrite Hp. split; [done | by eauto].
    + destruct (for_each grid u directions (State rest (visited st) (parent st)))
        as [st'| |] eqn:Hfor; simpl.
      * destruct (iteration d u rest st st' Hinv Htake Hu Hfor) as (d' & Hinv' & Hm1 & Hm2).
        destruct (IH d' st' Hinv') as [Hnf Htot]; [lia | lia |].
        split; [done|]. intros Hrect Hs. apply Htot; [done|].
        by eapply (for_each_shape grid _ _ u directions
                     (State rest (visited st) (parent st)) st').
      * split; [done|]. intros Hrect Hs.
        destruct (for_each_total grid u directions
                    (State rest (visited st) (parent st)) Hrect Hs) as [? E].
        congruence.
      * by apply for_each_not_fuel in Hfor.
Qed.

(** A returned path has no more cells than [parent] has entries, and
    the entries plus the unmarked flags stay as many as at the start. *)
Lemma search_loop_length budget fuel : ∀ d st p,
  loop_inv d st → search_loop take fuel budget grid end_ st = Ret p →
  (length p ≤ size (parent st) + unmarked (visited st))%nat.
Proof.
  induction fuel as [|fuel IH]; intros d st p Hinv Hrun; cbn [search_loop] in Hrun;
    destruct (take (frontier st)) as [[u rest]|] eqn:Htake; try done.
  1,3: injection Hrun as <-; simpl; lia.
  case_decide as Hu.
  - assert (known st u) as Hk.
    { destruct Hinv as (Ht & _). apply Ht. rewrite (take_Some _ _ _ Htake). by left. }
    destruct (reconstruct_sound grid v0 start d st (proj1 Hinv) budget u p Hk Hrun)
      as [_ Hlen].
    pose proof (tree_depth _ _ _ _ _ (proj1 Hinv) u Hk). lia.
  - apply obind_Ret in Hrun as (st' & Hfor & Hrun).
    destruct (iteration d u rest st st' Hinv Htake Hu Hfor) as (d' & Hinv' & Hm & _).
    specialize (IH d' st' p Hinv' Hrun). lia.
Qed.

(** The loop raises nothing but [IndexError]: every cell it looks up
    in [parent] has an entry. *)
Lemma search_loop_raise budget fuel : ∀ d st e,
  loop_inv d st → search_loop take fuel budget grid end_ st = Raise e →
  e = IndexError.
Proof.
  induction fuel as [|fuel IH]; intros d st e Hinv Hrun; cbn [search_loop] in Hrun;
    destruct (take (frontier st)) as [[u rest]|] eqn:Htake; try done.
  case_decide as Hu.
  - assert (known st u) as Hk.
    { destruct Hinv as (Ht & _). apply Ht. rewrite (take_Some _ _ _ Htake). by left. }
    by destruct (reconstruct_not_raise grid v0 start d st (proj1 Hinv) budget u e Hk).
  - apply obind_Raise in Hrun as [Hfor | (st' & Hfor & Hrun)].
    + by apply for_each_raise in Hfor.
    + destruct (iteration d u rest st st' Hinv Htake Hu Hfor) as (d' & Hinv' & _).
      by apply (IH d' st').
Qed.

End Loop.

(** ** The two searches *)

Lemma bfs_loop_search fuel budget grid end_ : ∀ st,
  bfs_loop fuel budget grid end_ st = search_loop Py.popleft fuel budget grid end_ st.
Proof.
  induction fuel as [|fuel IH]; intros st; cbn [bfs_loop search_loop];
    destruct (Py.popleft (frontier st)) as [[u rest]|]; try done.
  case_decide; [done|]. destruct (for_each _ _ _ _); simpl; by rewrite ?IH.
Qed.

Lemma dfs_loop_search fuel budget grid end_ : ∀ st,
  dfs_loop fuel budget grid end_ st = search_loop Py.pop fuel budget grid end_ st.
Proof.
  induction fuel as [|fuel IH]; intros st; cbn [dfs_loop search_loop];
    destruct (Py.pop (frontier st)) as [[u rest]|]; try done.
  case_decide; [done|]. destruct (for_each _ _ _ _); simpl; by rewrite ?IH.
Qed.

Lemma popleft_perm (l : list cell) u rest : Py.popleft l = Some (u, rest) → l ≡ₚ u :: rest.
Proof. by intros ->%popleft_Some. Qed.

Lemma pop_perm (l : list cell) u rest : Py.pop l = Some (u, rest) → l ≡ₚ u :: rest.
Proof. intros ->%pop_Some. symmetry. apply Permutation_cons_append. Qed.

(** *** The state before the loop *)

Lemma fresh_visited_eq grid :
  fresh_visited grid = Ret (replicate (rows grid) (replicate (cols grid) false)).
Proof.
  unfold fresh_visited, rows, cols. destruct grid as [|row0 g]; [done|].
  generalize (length (row0 :: g)). intros n. induction n as [|n IH]; [done|].
  cbn [fresh_rows]. rewrite IH. done.
Qed.

Lemma shape_fresh n m : shape n m (replicate n (replicate m false)).
Proof.
  split; [by rewrite length_replicate|].
  apply Forall_replicate. by rewrite length_replicate.
Qed.

Lemma unmarked_row_fresh m : unmarked_row (replicate m false) = m.
Proof.
  unfold unmarked_row. induction m as [|m IHm]; [done|]. simpl. by rewrite IHm.
Qed.

Lemma unmarked_fresh n m : unmarked (replicate n (replicate m false)) = (n * m)%nat.
Proof.
  unfold unmarked. induction n as [|n IH]; [done|]. csimpl. rewrite IH.
  by rewrite unmarked_row_fresh.
Qed.

Lemma lookup_fresh n m i j row :
  replicate n (replicate m false) !! i = Some row → (j < length row)%nat →
  row !! j = Some false.
Proof.
  intros [-> _]%lookup_replicate Hj. rewrite length_replicate in Hj.
  by apply lookup_replicate_2.
Qed.

Lemma flag_fresh grid c :
  in_bounds grid c →
  flag (replicate (rows grid) (replicate (cols grid) false)) c = Some false.
Proof.
  intros [? ?]. unfold flag.
  rewrite lookup_replicate_2 by lia. simpl. apply lookup_replicate_2. lia.
Qed.

Lemma initial_Ret_inv start grid st0 :
  initial start grid = Ret st0 ↔
  ∃ v0, mark (replicate (rows grid) (replicate (cols grid) false)) start.1 start.2
          = Ret v0 ∧
        st0 = State [start] v0 {[ start := None ]}.
Proof.
  unfold initial. rewrite fresh_visited_eq. simpl. rewrite obind_Ret.
  split; intros (v0 & Hm & E); exists v0; split; congruence.
Qed.

Lemma initial_not_fuel start grid : initial start grid ≠ OutOfFuel.
Proof.
  unfold initial. rewrite fresh_visited_eq. simpl.
  intros [H | (? & _ & ?)]%obind_fuel; [|done]. by apply mark_not_fuel in H.
Qed.

Lemma initial_in_bounds start grid :
  in_bounds grid start → ∃ st0, initial start grid = Ret st0.
Proof.
  intros Hin.
  destruct (mark_flagged (replicate (rows grid) (replicate (cols grid) false))
              start.1 start.2 false) as [v0 Hv0].
  - destruct Hin as [? _]. lia.
  - destruct Hin as [_ ?]. lia.
  - replace (start.1, start.2) with start by by destruct start. by apply flag_fresh.
  - eexists. apply initial_Ret_inv. eauto.
Qed.

Section Initial.
Variables (grid : list (list Z)) (start end_ : cell) (st0 : state).
Hypothesis Hinit : initial start grid = Ret st0.

Lemma initial_open_start : ¬ open grid (visited st0) start.
Proof.
  apply initial_Ret_inv in Hinit as (v0 & Hm & ->). simpl.
  intros [Hf Hfl]. assert (0 ≤ start.1 ∧ 0 ≤ start.2) as [? ?].
  { destruct Hf as [[? ?] _]. lia. }
  rewrite (flag_mark _ start.1 start.2 v0 start) in Hfl by done.
  rewrite decide_True in Hfl by by destruct start. done.
Qed.

Lemma initial_free_open c :
  0 ≤ start.1 → 0 ≤ start.2 → free grid c → open grid (visited st0) c ∨ c = start.
Proof.
  intros H1 H2 Hf. destruct (decide (c = start)) as [|Hne]; [by right | left].
  apply initial_Ret_inv in Hinit as (v0 & Hm & ->). simpl. split; [done|].
  assert (0 ≤ c.1 ∧ 0 ≤ c.2) as [? ?] by (destruct Hf as [[? ?] _]; lia).
  rewrite (flag_mark _ start.1 start.2 v0 c) by done.
  rewrite decide_False by (by destruct start). apply flag_fresh, Hf.
Qed.

Lemma initial_shape : shape (rows grid) (cols grid) (visited st0).
Proof.
  apply initial_Ret_inv in Hinit as (v0 & Hm & ->). simpl.
  eapply shape_mark; [apply shape_fresh | done].
Qed.

Lemma initial_measure :
  frontier st0 = [start] ∧ size (parent st0) = 1%nat ∧
  S (unmarked (visited st0)) = (rows grid * cols grid)%nat.
Proof.
  apply initial_Ret_inv in Hinit as (v0 & Hm & ->). simpl.
  split_and!; [done | by rewrite map_size_singleton |].
  apply mark_Ret in Hm as Hm'. destruct Hm' as (i & j & row & Hi & Hrow & Hj & _).
  rewrite <- (unmarked_fresh (rows grid) (cols grid)).
  eapply unmarked_mark; try done.
  eapply lookup_fresh; [done|]. by eapply index_Some.
Qed.

Lemma initial_loop_inv lay :
  loop_inv grid (visited st0) start end_ lay (fun _ => O) st0.
Proof.
  pose proof initial_open_start as Hos.
  apply initial_Ret_inv in Hinit as (v0 & Hm & ->). simpl in *.
  assert (∀ c, known (State [start] v0 {[start := None]}) c → c = start) as Hk.
  { intros c [x Hx]. simpl in Hx. by apply lookup_singleton_Some in Hx as [-> _]. }
  split_and!.
  - split; simpl.
    + by rewrite lookup_singleton_eq.
    + done.
    + intros c Hc. by apply lookup_singleton_Some in Hc as [-> _].
    + intros c u Hc. by apply lookup_singleton_Some in Hc as [_ ?].
    + intros c Hf. split.
      * intros Hfl. split; [done|]. apply lookup_singleton_None.
        intros <-. by apply Hos.
      * by intros [[_ ?] _].
    + intros c ->%list_elem_of_singleton. unfold known. simpl.
      by rewrite lookup_singleton_eq.
    + intros c _. rewrite map_size_singleton. lia.
  - intros c ->%Hk. left. simpl. by left.
  - intros _ h [= <-]. split; simpl.
    + intros i j a b _ Ha Hb.
      apply list_lookup_singleton_Some in Ha as [_ <-].
      by apply list_lookup_singleton_Some in Hb as [_ <-].
    + intros c _. lia.
    + intros c ->%Hk. left. by left.
Qed.

Lemma bfs_unfold fuel : bfs fuel start end_ grid = bfs_loop fuel fuel grid end_ st0.
Proof. unfold bfs. by rewrite Hinit. Qed.

Lemma dfs_unfold fuel : dfs fuel start end_ grid = dfs_loop fuel fuel grid end_ st0.
Proof. unfold dfs. by rewrite Hinit. Qed.

Lemma bfs_sound fuel p :
  bfs fuel start end_ grid = Ret p →
  (p = [] ∧ ∀ q, ¬ open_route grid (visited st0) start end_ q) ∨
  (found grid (visited st0) start end_ p ∧
   ∀ q, open_route grid (visited st0) start end_ q → (length p ≤ length q)%nat).
Proof.
  rewrite bfs_unfold, bfs_loop_search. intros Hrun.
  destruct (search_loop_sound grid (visited st0) start end_ initial_open_start True
              Py.popleft) with (budget := fuel) (fuel := fuel) (d := fun _ : cell => O)
              (st := st0) (p := p) as [? | [Hf Hmin]]; try done.
  - intros l. apply popleft_None.
  - apply popleft_perm.
  - intros _ l u rest. apply popleft_Some.
  - apply initial_loop_inv.
  - by left.
  - right. split; [done|]. by apply Hmin.
Qed.

Lemma dfs_sound fuel p :
  dfs fuel start end_ grid = Ret p →
  (p = [] ∧ ∀ q, ¬ open_route grid (visited st0) start end_ q) ∨
  found grid (visited st0) start end_ p.
Proof.
  rewrite dfs_unfold, dfs_loop_search. intros Hrun.
  destruct (search_loop_sound grid (visited st0) start end_ initial_open_start False
              Py.pop) with (budget := fuel) (fuel := fuel) (d := fun _ : cell => O)
              (st := st0) (p := p) as [? | [Hf Hmin]]; try done.
  - intros l. apply pop_None.
  - apply pop_perm.
  - apply initial_loop_inv.
  - by left.
  - by right.
Qed.

Lemma bfs_total fuel :
  (rows grid * cols grid ≤ fuel)%nat →
  bfs fuel start end_ grid ≠ OutOfFuel ∧
  (rectangular grid → ∃ p, bfs fuel start end_ grid = Ret p).
Proof.
  intros Hfuel. rewrite bfs_unfold, bfs_loop_search.
  destruct initial_measure as (Hfr & Hsz & Hun).
  destruct (search_loop_total grid (visited st0) start end_ initial_open_start True
              Py.popleft) with (budget := fuel) (fuel := fuel) (d := fun _ : cell => O)
              (st := st0) as [Hnf Htot]; try done.
  - apply popleft_perm.
  - intros _ l u rest. apply popleft_Some.
  - apply initial_loop_inv.
  - rewrite Hfr. simpl. lia.
  - lia.
  - split; [done|]. intros Hrect. apply Htot; [done | apply initial_shape].
Qed.

Lemma dfs_total fuel :
  (rows grid * cols grid ≤ fuel)%nat →
  dfs fuel start end_ grid ≠ OutOfFuel ∧
  (rectangular grid → ∃ p, dfs fuel start end_ grid = Ret p).
Proof.
  intros Hfuel. rewrite dfs_unfold, dfs_loop_search.
  destruct initial_measure as (Hfr & Hsz & Hun).
  destruct (search_loop_total grid (visited st0) start end_ initial_open_start False
              Py.pop) with (budget := fuel) (fuel := fuel) (d := fun _ : cell => O)
              (st := st0) as [Hnf Htot]; try done.
  - apply pop_perm.
  - apply initial_loop_inv.
  - rewrite Hfr. simpl. lia.
  - lia.
  - split; [done|]. intros Hrect. apply Htot; [done | apply initial_shape].
Qed.

End Initial.

(** ** From the invariants to routes on the grid *)

Lemma bfs_Ret_initial fuel start end_ grid p :
  bfs fuel start end_ grid = Ret p → ∃ st0, initial start grid = Ret st0.
Proof. unfold bfs. intros (st0 & H & _)%obind_Ret. eauto. Qed.

Lemma dfs_Ret_initial fuel start end_ grid p :
  dfs fuel start end_ grid = Ret p → ∃ st0, initial start grid = Ret st0.
Proof. unfold dfs. intros (st0 & H & _)%obind_Ret. eauto. Qed.

Lemma found_route grid v0 start end_ p :
  found grid v0 start end_ p → route grid start end_ p ∧ NoDup p ∧ p ≠ [].
Proof.
  intros (Hh & Hl & Hs & Ho & Hn). split_and!; [split_and! | |]; try done.
  - eapply Forall_impl; [done|]. by intros c [? _].
  - by intros ->.
Qed.

Lemma found_open_route grid v0 start end_ p :
  found grid v0 start end_ p → open_route grid v0 start end_ p.
Proof.
  intros (Hh & Hl & Hs & Ho & Hn). split_and!; try done.
  eapply Forall_impl; [done|]. by left.
Qed.

Lemma route_open_route grid v0 start end_ q :
  (∀ c, free grid c → open grid v0 c ∨ c = start) →
  route grid start end_ q → open_route grid v0 start end_ q.
Proof.
  intros Hfo (Hh & Hl & Hs & Hf). split_and!; try done.
  eapply Forall_impl; [done|]. apply Hfo.
Qed.

Lemma steps_lookup p : ∀ i a b,
  steps p → p !! i = Some a → p !! S i = Some b → step a b.
Proof.
  induction p as [|x p IH]; intros i a b Hs Ha Hb; [done|].
  destruct p as [|y p]; [done|]. apply steps_cons in Hs as [Hxy Hs].
  destruct i as [|i]; simplify_eq/=; [done|]. by apply (IH i).
Qed.

Lemma step_offset a b : step a b ↔ (b.1 - a.1, b.2 - a.2) ∈ directions.
Proof.
  split.
  - intros (d & Hd & ->). simpl. destruct d as [dx dy]. simpl.
    by replace (a.1 + dx - a.1) with dx by lia; replace (a.2 + dy - a.2) with dy by lia.
  - intros Hd. exists (b.1 - a.1, b.2 - a.2). split; [done|]. simpl.
    destruct b as [bx by_]. simpl. f_equal; lia.
Qed.

Lemma route_in_path grid start end_ p c :
  route grid start end_ p → c ∈ p → c ≠ start → free grid c.
Proof.
  intros (Hh & _ & _ & Hf) Hc Hne. destruct p as [|a p]; [done|].
  simpl in *. simplify_eq. apply elem_of_cons in Hc as [-> | Hc]; [done|].
  by apply (proj1 (Forall_forall _ _) Hf).
Qed.

(** *** Manhattan distance *)

Lemma step_manhattan a b e : step a b → manhattan a e ≤ manhattan b e + 1.
Proof.
  intros (d & Hd & ->). unfold manhattan, directions in *. simpl.
  repeat (apply elem_of_cons in Hd as [-> | Hd]); simpl; [lia..|].
  by apply elem_of_nil in Hd.
Qed.

Lemma steps_manhattan p : ∀ a e,
  head p = Some a → last p = Some e → steps p →
  manhattan a e + 1 ≤ Z.of_nat (length p).
Proof.
  induction p as [|x p IH]; intros a e Hh Hl Hs; [done|].
  simpl in Hh. simplify_eq. destruct p as [|y p].
  - simpl in Hl. simplify_eq. unfold manhattan. simpl. lia.
  - apply steps_cons in Hs as [Hxy Hs].
    specialize (IH y e eq_refl Hl Hs). pose proof (step_manhattan _ _ e Hxy).
    simpl length in *. lia.
Qed.

Lemma clear_free grid c :
  rectangular grid → Forall (Forall (fun occ => occ = 0)) grid →
  in_bounds grid c → free grid c.
Proof.
  intros Hrect Hclear [H1 H2]. split; [done|]. unfold occupancy, rows in *.
  destruct (lookup_lt_is_Some_2 grid (Z.to_nat c.1)) as [row Hrow]; [lia|].
  rewrite Hrow. simpl.
  pose proof (Forall_lookup_1 _ _ _ _ Hrect Hrow) as Hlen. simpl in Hlen.
  destruct (lookup_lt_is_Some_2 row (Z.to_nat c.2)) as [occ Hocc]; [lia|].
  rewrite Hocc. f_equal.
  pose proof (Forall_lookup_1 _ _ _ _ Hclear Hrow) as Hz.
  by apply (Forall_lookup_1 _ _ _ _ Hz Hocc).
Qed.

(** On a grid without obstacles a route as short as the Manhattan
    distance allows joins any two cells. *)
Lemma clear_route grid :
  rectangular grid → Forall (Forall (fun occ => occ = 0)) grid →
  ∀ n a e, in_bounds grid a → in_bounds grid e →
    manhattan a e = Z.of_nat n →
    ∃ p, route grid a e p ∧ length p = S n.
Proof.
  intros Hrect Hclear. induction n as [|n IH]; intros a e Ha He Hm.
  - exists [a]. assert (a = e) as ->.
    { unfold manhattan in Hm. destruct a, e. simpl in *. f_equal; lia. }
    by split_and!.
  - assert (∃ a', step a a' ∧ in_bounds grid a' ∧ manhattan a' e = Z.of_nat n)
      as (a' & Hst & Ha' & Hm').
    { unfold manhattan, in_bounds in *. destruct a as [ax ay], e as [ex ey].
      simpl in *.
      destruct (Z.lt_trichotomy ax ex) as [Hx | [Hx | Hx]].
      - exists (ax + 1, ay). split_and!; simpl; try lia.
        exists (1, 0). split; [|simpl; f_equal; lia].
        unfold directions. set_solver.
      - destruct (Z.lt_trichotomy ay ey) as [Hy | [Hy | Hy]].
        + exists (ax, ay + 1). split_and!; simpl; try lia.
          exists (0, 1). split; [|simpl; f_equal; lia].
          unfold directions. set_solver.
        + lia.
        + exists (ax, ay - 1). split_and!; simpl; try lia.
          exists (0, -1). split; [|simpl; f_equal; lia].
          unfold directions. set_solver.
      - exists (ax - 1, ay). split_and!; simpl; try lia.
        exists (-1, 0). split; [|simpl; f_equal; lia].
        unfold directions. set_solver. }
    destruct (IH a' e Ha' He Hm') as (p & (Hh & Hl & Hs & Hf) & Hlen).
    exists (a :: p). split; [|simpl; by rewrite Hlen].
    destruct p as [|x p]; [done|]. simpl in Hh. simplify_eq.
    split_and!; try done. simpl. constructor; [|done].
    by apply clear_free.
Qed.

(** ** What the searches compute *)

Lemma search_found grid start end_ fuel p :
  bfs fuel start end_ grid = Ret p ∨ dfs fuel start end_ grid = Ret p →
  p ≠ [] → ∃ v0, found grid v0 start end_ p.
Proof.
  intros [Hb | Hd] Hne.
  - destruct (bfs_Ret_initial _ _ _ _ _ Hb) as [st0 Hinit].
    exists (visited st0).
    by destruct (bfs_sound grid start end_ st0 Hinit fuel p Hb) as [[? _] | [? _]].
  - destruct (dfs_Ret_initial _ _ _ _ _ Hd) as [st0 Hinit].
    exists (visited st0).
    by destruct (dfs_sound grid start end_ st0 Hinit fuel p Hd) as [[? _] | ?].
Qed.

Lemma bfs_finds_shortest grid start end_ fuel :
  rectangular grid → in_bounds grid start → (rows grid * cols grid ≤ fuel)%nat →
  ∃ p, bfs fuel start end_ grid = Ret p ∧
       (p ≠ [] ↔ reachable grid start end_) ∧
       (p ≠ [] → route grid start end_ p ∧ NoDup p ∧
                 ∀ q, route grid start end_ q → (length p ≤ length q)%nat).
Proof.
  intros Hrect Hin Hfuel.
  destruct (initial_in_bounds start grid Hin) as [st0 Hinit].
  destruct (bfs_total grid start end_ st0 Hinit fuel Hfuel) as [_ Htot].
  destruct (Htot Hrect) as [p Hp]. exists p. split; [done|].
  assert (∀ q, route grid start end_ q → open_route grid (visited st0) start end_ q)
    as Hro.
  { intros q. apply route_open_route. intros c.
    apply (initial_free_open grid start st0 Hinit); destruct Hin; lia. }
  destruct (bfs_sound grid start end_ st0 Hinit fuel p Hp) as [[-> Hno] | [Hf Hmin]].
  - split; [|done]. split; [done|]. intros [q Hq]. destruct (Hno q). by apply Hro.
  - destruct (found_route _ _ _ _ _ Hf) as (Hr & Hnd & Hne).
    split; [split; [by exists p | done] |].
    intros _. split_and!; [done | done |]. intros q Hq. by apply Hmin, Hro.
Qed.

Lemma dfs_finds grid start end_ fuel :
  rectangular grid → in_bounds grid start → (rows grid * cols grid ≤ fuel)%nat →
  ∃ p, dfs fuel start end_ grid = Ret p ∧
       (p ≠ [] ↔ reachable grid start end_).
Proof.
  intros Hrect Hin Hfuel.
  destruct (initial_in_bounds start grid Hin) as [st0 Hinit].
  destruct (dfs_total grid start end_ st0 Hinit fuel Hfuel) as [_ Htot].
  destruct (Htot Hrect) as [p Hp]. exists p. split; [done|].
  destruct (dfs_sound grid start end_ st0 Hinit fuel p Hp) as [[-> Hno] | Hf].
  - split; [done|]. intros [q Hq]. destruct (Hno q).
    apply route_open_route; [|done]. intros c.
    apply (initial_free_open grid start st0 Hinit); destruct Hin; lia.
  - destruct (found_route _ _ _ _ _ Hf) as (Hr & Hnd & Hne).
    split; [by exists p | done].
Qed.

Lemma blocked_unreachable grid start end_ :
  blocked grid end_ → end_ ≠ start → ¬ reachable grid start end_.
Proof.
  intros (_ & occ & Hocc & Hnz) Hne [p Hp].
  assert (end_ ∈ p) as Hin.
  { destruct Hp as (_ & Hl & _). apply last_Some in Hl as [l' ->].
    apply elem_of_app. right. by left. }
  destruct (route_in_path grid start end_ p end_ Hp Hin Hne) as [_ Hf]. congruence.
Qed.

Lemma visit_marks_once grid cur st dir st' :
  visit grid cur st dir = Ret st' →
  st' = st ∨
  (flag (visited st) (move cur dir) = Some false ∧
   flag (visited st') (move cur dir) = Some true ∧
   frontier st' = frontier st ++ [move cur dir] ∧
   S (unmarked (visited st')) = unmarked (visited st)).
Proof.
  intros Hv. unfold visit in Hv. apply obind_Ret in Hv as (ok & Hok & Hv).
  destruct ok; [|left; by injection Hv as <-]. right.
  apply obind_Ret in Hv as (vis' & Hm & [= <-]). simpl.
  apply is_valid_move_true in Hok as [Hf Hfl].
  assert (0 ≤ cur.1 + dir.1 ∧ 0 ≤ cur.2 + dir.2) as [? ?]
    by (destruct Hf as [[? ?] _]; simpl in *; lia).
  split_and!; [done | | done |].
  - rewrite (flag_mark (visited st) (cur.1 + dir.1) (cur.2 + dir.2) vis') by done.
    by rewrite decide_True.
  - by apply (unmarked_mark_nonneg (visited st) (cur.1 + dir.1) (cur.2 + dir.2)).
Qed.

Lemma initial_marks_start grid start st0 :
  initial start grid = Ret st0 → in_bounds grid start →
  frontier st0 = [start] ∧ flag (visited st0) start = Some true.
Proof.
  intros (v0 & Hm & ->)%initial_Ret_inv [? ?]. simpl. split; [done|].
  rewrite (flag_mark _ start.1 start.2 v0 start) by (done || lia).
  rewrite decide_True; [done | by destruct start].
Qed.

(** Facts about the cells and moves of a concrete grid. *)
Ltac in_grid := split; split; by vm_compute.
Ltac free_cell := split; [in_grid | reflexivity].
Ltac one_step d := exists d; split; [unfold directions; set_solver | reflexivity].

(** ** The scenarios of the specification, run on the model *)

Example scenario_open_grid :
  bfs 9 (0, 0) (2, 2) (create_grid 3 3)
  = Ret [(0, 0); (1, 0); (2, 0); (2, 1); (2, 2)].
Proof. vm_compute. reflexivity. Qed.

Example scenario_enclosed :
  let grid := [[0; 1; 0]; [1; 1; 0]; [0; 0; 0]] in
  bfs 9 (0, 0) (2, 2) grid = Ret [] ∧ dfs 9 (0, 0) (2, 2) grid = Ret [].
Proof. split; vm_compute; reflexivity. Qed.

Example scenario_same_cell :
  bfs 100 (4, 4) (4, 4) (create_grid 10 10) = Ret [(4, 4)] ∧
  dfs 100 (4, 4) (4, 4) (create_grid 10 10) = Ret [(4, 4)].
Proof. split; vm_compute; reflexivity. Qed.

(** The order of [directions] decides between paths of equal length, and
    [dfs] explores the last direction first. *)
Example scenario_tie_break :
  bfs 4 (0, 0) (1, 1) (create_grid 2 2) = Ret [(0, 0); (1, 0); (1, 1)] ∧
  dfs 4 (0, 0) (1, 1) (create_grid 2 2) = Ret [(0, 0); (0, 1); (1, 1)].
Proof. split; vm_compute; reflexivity. Qed.

(** A start with a negative coordinate is accepted by the subscript
    [visited[start[0]][start[1]]], which then marks a cell counted from
    the end: here (2, 0), which the search can no longer enter. *)
Example scenario_negative_start :
  bfs 9 (-1, 0) (2, 0) (create_grid 3 3) = Ret [] ∧
  bfs 9 (-1, 0) (1, 0) (create_grid 3 3) = Ret [(-1, 0); (0, 0); (1, 0)].
Proof. split; vm_compute; reflexivity. Qed.

(** ** The properties of the specification *)

(** C1. When start and destination are connected through free cells,
    [bfs] returns a non-empty path from start to destination through
    free cells, and no 4-directional path through free cells from start
    to destination has fewer cells. *)
Theorem bfs_returns_shortest_path grid start end_ fuel :
  rectangular grid → (rows grid * cols grid ≤ fuel)%nat →
  (∃ q, free_route grid start end_ q) →
  ∃ p, bfs fuel start end_ grid = Ret p ∧ p ≠ [] ∧
       free_route grid start end_ p ∧
       ∀ q, free_route grid start end_ q → (length p ≤ length q)%nat.
Proof.
  intros Hrect Hfuel (q0 & Hq0 & Hfs).
  destruct (bfs_finds_shortest grid start end_ fuel Hrect (proj1 Hfs) Hfuel)
    as (p & Hp & Hiff & Hmin).
  assert (p ≠ []) as Hne by (apply Hiff; by exists q0).
  destruct (Hmin Hne) as (Hr & _ & Hle).
  exists p. split_and!; [done | done | by split |].
  intros q [Hq _]. by apply Hle.
Qed.

Lemma bfs_returns_shortest_path_witness :
  let grid := [[0; 1; 0]; [0; 0; 0]] in
  rectangular grid ∧ (rows grid * cols grid ≤ 6)%nat ∧
  (∃ q, free_route grid (0, 0) (0, 2) q) ∧
  ∃ p, bfs 6 (0, 0) (0, 2) grid = Ret p ∧ p ≠ [] ∧
       free_route grid (0, 0) (0, 2) p ∧
       ∀ q, free_route grid (0, 0) (0, 2) q → (length p ≤ length q)%nat.
Proof.
  intros grid.
  assert (rectangular grid) as Hrect by (repeat constructor).
  assert (rows grid * cols grid ≤ 6)%nat as Hfuel by (vm_compute; lia).
  assert (∃ q, free_route grid (0, 0) (0, 2) q) as Hq.
  { exists [(0, 0); (1, 0); (1, 1); (1, 2); (0, 2)].
    split; [|free_cell].
    split_and!; [reflexivity | reflexivity | |].
    - simpl. split_and!; [one_step (1, 0) | one_step (0, 1) | one_step (0, 1)
                         | one_step (-1, 0) | done].
    - simpl. repeat (constructor; [free_cell|]). constructor. }
  split_and!; [done | done | done |].
  exact (bfs_returns_shortest_path grid (0, 0) (0, 2) 6 Hrect Hfuel Hq).
Defined.

(** C2, as the code has it. For every grid, every start inside the grid
    and every destination, [bfs] and [dfs] each return a non-empty path
    exactly when the destination is reachable from start by moves whose
    cells after start are free; when it is unreachable both return the
    empty sequence. With a free start this is reachability through free
    cells. *)
Theorem searches_find_iff_reachable grid start end_ fuel :
  rectangular grid → in_bounds grid start → (rows grid * cols grid ≤ fuel)%nat →
  ∃ p q, bfs fuel start end_ grid = Ret p ∧ dfs fuel start end_ grid = Ret q ∧
         (p ≠ [] ↔ reachable grid start end_) ∧
         (q ≠ [] ↔ reachable grid start end_) ∧
         (¬ reachable grid start end_ → p = [] ∧ q = []) ∧
         (free grid start →
          (reachable grid start end_ ↔ ∃ r, free_route grid start end_ r)).
Proof.
  intros Hrect Hin Hfuel.
  destruct (bfs_finds_shortest grid start end_ fuel Hrect Hin Hfuel) as (p & Hp & Hpr & _).
  destruct (dfs_finds grid start end_ fuel Hrect Hin Hfuel) as (q & Hq & Hqr).
  exists p, q. split_and!; try done.
  - intros Hno. split.
    + destruct p; [done|]. destruct Hno. by apply Hpr.
    + destruct q; [done|]. destruct Hno. by apply Hqr.
  - intros Hfs. split; intros [r Hr]; exists r; [by split | apply Hr].
Qed.

Lemma searches_find_iff_reachable_witness :
  let grid := [[0; 1; 0]; [0; 1; 0]] in
  rectangular grid ∧ in_bounds grid (0, 0) ∧ (rows grid * cols grid ≤ 6)%nat ∧
  ∃ p q, bfs 6 (0, 0) (0, 2) grid = Ret p ∧ dfs 6 (0, 0) (0, 2) grid = Ret q ∧
         (p ≠ [] ↔ reachable grid (0, 0) (0, 2)) ∧
         (q ≠ [] ↔ reachable grid (0, 0) (0, 2)) ∧
         (¬ reachable grid (0, 0) (0, 2) → p = [] ∧ q = []) ∧
         (free grid (0, 0) →
          (reachable grid (0, 0) (0, 2) ↔ ∃ r, free_route grid (0, 0) (0, 2) r)).
Proof.
  intros grid.
  assert (rectangular grid) as Hrect by (repeat constructor).
  assert (in_bounds grid (0, 0)) as Hin by in_grid.
  assert (rows grid * cols grid ≤ 6)%nat as Hfuel by (vm_compute; lia).
  split_and!; [done | done | done |].
  exact (searches_find_iff_reachable grid (0, 0) (0, 2) 6 Hrect Hin Hfuel).
Defined.

(** C2 as stated fails for a start outside the grid: the destination is
    unreachable, and both searches raise [IndexError] at
    [visited[start[0]][start[1]] = True] instead of returning the empty
    sequence. *)
Lemma searches_raise_outside_grid :
  ¬ reachable [[0]] (5, 5) (0, 0) ∧
  ∀ fuel, bfs fuel (5, 5) (0, 0) [[0]] = Raise IndexError ∧
          dfs fuel (5, 5) (0, 0) [[0]] = Raise IndexError.
Proof.
  split; [|done].
  intros (p & Hh & Hl & Hs & Hf). destruct p as [|a [|b p]]; simplify_eq/=.
  destruct Hs as [(d & Hd & ->) _]. inversion Hf as [|? ? [[[? ?] [? ?]] _] _]; subst.
  unfold directions in Hd. simpl in *.
  repeat (apply elem_of_cons in Hd as [-> | Hd]); simpl in *; try lia.
  by apply elem_of_nil in Hd.
Qed.

(** C3. A non-empty path returned by [bfs] or [dfs] begins with start
    and ends with the destination. *)
Theorem path_endpoints grid start end_ fuel p :
  bfs fuel start end_ grid = Ret p ∨ dfs fuel start end_ grid = Ret p →
  p ≠ [] → head p = Some start ∧ last p = Some end_.
Proof.
  intros Hrun Hne. destruct (search_found grid start end_ fuel p Hrun Hne) as [v0 Hf].
  destruct Hf as (Hh & Hl & _). done.
Qed.

Lemma path_endpoints_witness :
  let grid := [[0; 1]; [0; 0]] in
  let p := [(0, 0); (1, 0); (1, 1)] in
  (bfs 4 (0, 0) (1, 1) grid = Ret p ∨ dfs 4 (0, 0) (1, 1) grid = Ret p) ∧
  p ≠ [] ∧ head p = Some (0, 0) ∧ last p = Some (1, 1).
Proof.
  intros grid p.
  assert (bfs 4 (0, 0) (1, 1) grid = Ret p ∨ dfs 4 (0, 0) (1, 1) grid = Ret p) as Hrun
    by (left; vm_compute; reflexivity).
  assert (p ≠ []) as Hne by done.
  split_and!; [done | done | ..];
    apply (path_endpoints grid (0, 0) (1, 1) 4 p Hrun Hne).
Defined.

(** C4. In a non-empty path returned by [bfs] or [dfs], each cell
    differs from the one before it by one of the four offsets of
    [directions]. *)
Theorem path_moves grid start end_ fuel p :
  bfs fuel start end_ grid = Ret p ∨ dfs fuel start end_ grid = Ret p →
  p ≠ [] →
  ∀ i a b, p !! i = Some a → p !! S i = Some b →
           (b.1 - a.1, b.2 - a.2) ∈ directions.
Proof.
  intros Hrun Hne i a b Ha Hb.
  destruct (search_found grid start end_ fuel p Hrun Hne) as [v0 Hf].
  destruct Hf as (_ & _ & Hs & _). apply step_offset. by apply (steps_lookup p i).
Qed.

Lemma path_moves_witness :
  let grid := [[0; 1]; [0; 0]] in
  let p := [(0, 0); (1, 0); (1, 1)] in
  (bfs 4 (0, 0) (1, 1) grid = Ret p ∨ dfs 4 (0, 0) (1, 1) grid = Ret p) ∧
  p ≠ [] ∧
  ∀ i a b, p !! i = Some a → p !! S i = Some b →
           (b.1 - a.1, b.2 - a.2) ∈ directions.
Proof.
  intros grid p.
  assert (bfs 4 (0, 0) (1, 1) grid = Ret p ∨ dfs 4 (0, 0) (1, 1) grid = Ret p) as Hrun
    by (right; vm_compute; reflexivity).
  assert (p ≠ []) as Hne by done.
  split_and!; [done | done |].
  exact (path_moves grid (0, 0) (1, 1) 4 p Hrun Hne).
Defined.

(** C5. In a non-empty path returned by [bfs] or [dfs], every cell other
    than start is inside the grid and free, and no cell occurs twice. *)
Theorem path_cells grid start end_ fuel p :
  bfs fuel start end_ grid = Ret p ∨ dfs fuel start end_ grid = Ret p →
  p ≠ [] →
  (∀ c, c ∈ p → c ≠ start → in_bounds grid c ∧ occupancy grid c = Some 0) ∧
  NoDup p.
Proof.
  intros Hrun Hne. destruct (search_found grid start end_ fuel p Hrun Hne) as [v0 Hf].
  destruct (found_route _ _ _ _ _ Hf) as (Hr & Hnd & _). split; [|done].
  intros c Hc Hcs. by apply (route_in_path grid start end_ p).
Qed.

Lemma path_cells_witness :
  let grid := [[1; 1]; [0; 0]] in
  let p := [(0, 0); (1, 0); (1, 1)] in
  (bfs 4 (0, 0) (1, 1) grid = Ret p ∨ dfs 4 (0, 0) (1, 1) grid = Ret p) ∧
  p ≠ [] ∧
  (∀ c, c ∈ p → c ≠ (0, 0) → in_bounds grid c ∧ occupancy grid c = Some 0) ∧
  NoDup p.
Proof.
  intros grid p.
  assert (bfs 4 (0, 0) (1, 1) grid = Ret p ∨ dfs 4 (0, 0) (1, 1) grid = Ret p) as Hrun
    by (left; vm_compute; reflexivity).
  assert (p ≠ []) as Hne by done.
  split_and!; [done | done | ..];
    apply (path_cells grid (0, 0) (1, 1) 4 p Hrun Hne).
Defined.

(** C6. On a grid without obstacles, [bfs] between two cells of the
    grid returns a path whose number of cells is their Manhattan
    distance plus one. *)
Theorem bfs_manhattan grid start end_ fuel :
  rectangular grid → Forall (Forall (fun occ => occ = 0)) grid →
  in_bounds grid start → in_bounds grid end_ →
  (rows grid * cols grid ≤ fuel)%nat →
  ∃ p, bfs fuel start end_ grid = Ret p ∧
       Z.of_nat (length p) = manhattan start end_ + 1.
Proof.
  intros Hrect Hclear Hs He Hfuel.
  destruct (bfs_finds_shortest grid start end_ fuel Hrect Hs Hfuel)
    as (p & Hp & Hiff & Hmin).
  destruct (clear_route grid Hrect Hclear (Z.to_nat (manhattan start end_)) start end_)
    as (q & Hq & Hlen); [done | done | unfold manhattan; lia |].
  assert (p ≠ []) as Hne by (apply Hiff; by exists q).
  destruct (Hmin Hne) as ((Hh & Hl & Hst & _) & _ & Hle).
  exists p. split; [done|].
  pose proof (steps_manhattan p start end_ Hh Hl Hst).
  specialize (Hle q Hq). unfold manhattan in *. lia.
Qed.

Lemma bfs_manhattan_witness :
  let grid := create_grid 3 3 in
  rectangular grid ∧ Forall (Forall (fun occ => occ = 0)) grid ∧
  in_bounds grid (0, 0) ∧ in_bounds grid (2, 2) ∧
  (rows grid * cols grid ≤ 9)%nat ∧
  ∃ p, bfs 9 (0, 0) (2, 2) grid = Ret p ∧
       Z.of_nat (length p) = manhattan (0, 0) (2, 2) + 1.
Proof.
  intros grid.
  assert (rectangular grid) as Hrect by (repeat constructor).
  assert (Forall (Forall (fun occ => occ = 0)) grid) as Hclear by (repeat constructor).
  assert (in_bounds grid (0, 0)) as Hs by in_grid.
  assert (in_bounds grid (2, 2)) as He by in_grid.
  assert (rows grid * cols grid ≤ 9)%nat as Hfuel by (vm_compute; lia).
  split_and!; [done | done | done | done | done |].
  exact (bfs_manhattan grid (0, 0) (2, 2) 9 Hrect Hclear Hs He Hfuel).
Defined.

(** C7. With start and destination the same cell of the grid, [bfs] and
    [dfs] return the path made of that cell alone. *)
Theorem single_cell_path grid c fuel :
  in_bounds grid c →
  bfs (S fuel) c c grid = Ret [c] ∧ dfs (S fuel) c c grid = Ret [c].
Proof.
  intros Hin. destruct (initial_in_bounds c grid Hin) as [st0 Hinit].
  rewrite (bfs_unfold grid c c st0 Hinit), (dfs_unfold grid c c st0 Hinit).
  apply initial_Ret_inv in Hinit as (v0 & _ & ->).
  cbn [bfs_loop dfs_loop frontier parent Py.popleft].
  change (Py.pop [c]) with (Some (c, @nil cell)). cbn iota beta.
  rewrite !decide_True by done.
  unfold reconstruct. cbn [walk_back]. rewrite lookup_singleton_eq.
  by destruct fuel.
Qed.

Lemma single_cell_path_witness :
  let grid := create_grid 10 10 in
  in_bounds grid (4, 4) ∧
  bfs 1 (4, 4) (4, 4) grid = Ret [(4, 4)] ∧ dfs 1 (4, 4) (4, 4) grid = Ret [(4, 4)].
Proof.
  intros grid.
  assert (in_bounds grid (4, 4)) as Hin by in_grid.
  split; [done|].
  exact (single_cell_path grid (4, 4) O Hin).
Defined.

(** C8, as the code has it. For every grid and every start and
    destination inside it, blocked or not, [bfs] and [dfs] return
    without raising. Start is put in the frontier and marked whatever
    its occupancy, and a destination that can be reached from it by
    moves into free cells is found. A blocked destination other than
    start yields the empty path. *)
Theorem blocked_endpoints grid start end_ fuel :
  rectangular grid → in_bounds grid start → in_bounds grid end_ →
  (rows grid * cols grid ≤ fuel)%nat →
  ∃ p q, bfs fuel start end_ grid = Ret p ∧ dfs fuel start end_ grid = Ret q ∧
         (∃ st0, initial start grid = Ret st0 ∧ frontier st0 = [start] ∧
                 flag (visited st0) start = Some true) ∧
         (reachable grid start end_ → p ≠ [] ∧ q ≠ []) ∧
         (blocked grid end_ → end_ ≠ start → p = [] ∧ q = []).
Proof.
  intros Hrect Hs He Hfuel.
  destruct (bfs_finds_shortest grid start end_ fuel Hrect Hs Hfuel) as (p & Hp & Hpr & _).
  destruct (dfs_finds grid start end_ fuel Hrect Hs Hfuel) as (q & Hq & Hqr).
  exists p, q. split_and!; [done | done | | |].
  - destruct (initial_in_bounds start grid Hs) as [st0 Hinit]. exists st0.
    split; [done|]. by apply (initial_marks_start grid).
  - intros Hr. split; [by apply Hpr | by apply Hqr].
  - intros Hb Hne. pose proof (blocked_unreachable grid start end_ Hb Hne) as Hno.
    split.
    + destruct p; [done|]. destruct Hno. by apply Hpr.
    + destruct q; [done|]. destruct Hno. by apply Hqr.
Qed.

Lemma blocked_endpoints_witness :
  let grid := [[1; 0]; [0; 1]] in
  rectangular grid ∧ in_bounds grid (0, 0) ∧ in_bounds grid (1, 1) ∧
  (rows grid * cols grid ≤ 4)%nat ∧
  ∃ p q, bfs 4 (0, 0) (1, 1) grid = Ret p ∧ dfs 4 (0, 0) (1, 1) grid = Ret q ∧
         (∃ st0, initial (0, 0) grid = Ret st0 ∧ frontier st0 = [(0, 0)] ∧
                 flag (visited st0) (0, 0) = Some true) ∧
         (reachable grid (0, 0) (1, 1) → p ≠ [] ∧ q ≠ []) ∧
         (blocked grid (1, 1) → (1, 1) ≠ (0, 0) → p = [] ∧ q = []).
Proof.
  intros grid.
  assert (rectangular grid) as Hrect by (repeat constructor).
  assert (in_bounds grid (0, 0)) as Hs by in_grid.
  assert (in_bounds grid (1, 1)) as He by in_grid.
  assert (rows grid * cols grid ≤ 4)%nat as Hfuel by (vm_compute; lia).
  split_and!; [done | done | done | done |].
  exact (blocked_endpoints grid (0, 0) (1, 1) 4 Hrect Hs He Hfuel).
Defined.

(** C8 as stated fails when the blocked destination is start itself:
    the searches return the one-cell path, not the empty one. *)
Lemma blocked_destination_at_start :
  in_bounds [[1]] (0, 0) ∧ blocked [[1]] (0, 0) ∧
  bfs 1 (0, 0) (0, 0) [[1]] = Ret [(0, 0)] ∧
  dfs 1 (0, 0) (0, 0) [[1]] = Ret [(0, 0)].
Proof.
  split_and!; [in_grid | | reflexivity | reflexivity].
  split; [in_grid|]. exists 1. split; [reflexivity | lia].
Qed.

(** C9. When [bfs] and [dfs] both return a non-empty path for the same
    grid, start and destination, the path of [bfs] has no more cells
    than the path of [dfs]. *)
Theorem bfs_no_longer_than_dfs grid start end_ fuel fuel' p q :
  bfs fuel start end_ grid = Ret p → dfs fuel' start end_ grid = Ret q →
  p ≠ [] → q ≠ [] → (length p ≤ length q)%nat.
Proof.
  intros Hb Hd Hp Hq.
  destruct (bfs_Ret_initial _ _ _ _ _ Hb) as [st0 Hinit].
  destruct (bfs_sound grid start end_ st0 Hinit fuel p Hb) as [[? _] | [_ Hmin]];
    [done|].
  destruct (dfs_sound grid start end_ st0 Hinit fuel' q Hd) as [[? _] | Hf]; [done|].
  by apply Hmin, found_open_route.
Qed.

Lemma bfs_no_longer_than_dfs_witness :
  let grid := create_grid 3 3 in
  let p := [(0, 0); (1, 0); (2, 0)] in
  let q := [(0, 0); (0, 1); (0, 2); (1, 2); (2, 2); (2, 1); (2, 0)] in
  bfs 9 (0, 0) (2, 0) grid = Ret p ∧ dfs 9 (0, 0) (2, 0) grid = Ret q ∧
  p ≠ [] ∧ q ≠ [] ∧ (length p ≤ length q)%nat.
Proof.
  intros grid p q.
  assert (bfs 9 (0, 0) (2, 0) grid = Ret p) as Hb by (vm_compute; reflexivity).
  assert (dfs 9 (0, 0) (2, 0) grid = Ret q) as Hd by (vm_compute; reflexivity).
  assert (p ≠ []) as Hp by done.
  assert (q ≠ []) as Hq by done.
  split_and!; [done | done | done | done |].
  exact (bfs_no_longer_than_dfs grid (0, 0) (2, 0) 9 9 p q Hb Hd Hp Hq).
Defined.

(** C10. [bfs] and [dfs] terminate: neither loop of a call runs more
    than rows × cols iterations. A step of the [for] loop changes
    nothing, or appends to the frontier one cell whose flag was [False]
    and sets that flag, so that one unmarked cell fewer remains. *)
Theorem searches_terminate grid start end_ fuel :
  (rows grid * cols grid ≤ fuel)%nat →
  bfs fuel start end_ grid ≠ OutOfFuel ∧
  dfs fuel start end_ grid ≠ OutOfFuel ∧
  ∀ cur st dir st', visit grid cur st dir = Ret st' →
    st' = st ∨
    (flag (visited st) (move cur dir) = Some false ∧
     flag (visited st') (move cur dir) = Some true ∧
     frontier st' = frontier st ++ [move cur dir] ∧
     S (unmarked (visited st')) = unmarked (visited st)).
Proof.
  intros Hfuel. split_and!; [| | apply visit_marks_once].
  - destruct (initial start grid) as [st0| |] eqn:Hinit.
    + by apply (bfs_total grid start end_ st0 Hinit fuel).
    + unfold bfs. by rewrite Hinit.
    + by apply initial_not_fuel in Hinit.
  - destruct (initial start grid) as [st0| |] eqn:Hinit.
    + by apply (dfs_total grid start end_ st0 Hinit fuel).
    + unfold dfs. by rewrite Hinit.
    + by apply initial_not_fuel in Hinit.
Qed.

Lemma searches_terminate_witness :
  let grid := [[0; 0; 0]; [1; 1; 0]; [0; 0; 0]] in
  (rows grid * cols grid ≤ 9)%nat ∧
  bfs 9 (0, 0) (2, 0) grid ≠ OutOfFuel ∧
  dfs 9 (0, 0) (2, 0) grid ≠ OutOfFuel ∧
  ∀ cur st dir st', visit grid cur st dir = Ret st' →
    st' = st ∨
    (flag (visited st) (move cur dir) = Some false ∧
     flag (visited st') (move cur dir) = Some true ∧
     frontier st' = frontier st ++ [move cur dir] ∧
     S (unmarked (visited st')) = unmarked (visited st)).
Proof.
  intros grid.
  assert (rows grid * cols grid ≤ 9)%nat as Hfuel by (vm_compute; lia).
  split; [done|].
  exact (searches_terminate grid (0, 0) (2, 0) 9 Hfuel).
Defined.

(** ** Further properties of the searches *)

Lemma index_None len i :
  Py.index len i = None ↔ ¬ (- Z.of_nat len ≤ i < Z.of_nat len).
Proof. unfold Py.index. repeat case_decide; split; intros; try done; lia. Qed.

Lemma index_wrap len i :
  - Z.of_nat len ≤ i < Z.of_nat len →
  Py.index len i =
    Some (Z.to_nat (if decide (0 ≤ i) then i else Z.of_nat len + i)).
Proof. intros Hi. unfold Py.index. repeat case_decide; try done; lia. Qed.

Lemma initial_raise start grid e : initial start grid = Raise e → e = IndexError.
Proof.
  unfold initial. rewrite fresh_visited_eq. simpl.
  intros [H | (? & _ & ?)]%obind_Raise; [|done]. by apply mark_raise in H.
Qed.

Lemma initial_invalid start grid :
  ¬ valid_subscript grid start → initial start grid = Raise IndexError.
Proof.
  intros Hno. unfold initial. rewrite fresh_visited_eq. simpl.
  unfold mark, Py.getitem. rewrite length_replicate.
  destruct (Py.index (rows grid) start.1) as [i|] eqn:Hi; [|done].
  apply index_Some in Hi as Hlt. rewrite lookup_replicate_2 by done. simpl.
  unfold Py.setitem. rewrite length_replicate.
  destruct (Py.index (cols grid) start.2) as [j|] eqn:Hj; [|done].
  destruct Hno. split.
  - destruct (decide (- Z.of_nat (rows grid) ≤ start.1 < Z.of_nat (rows grid)));
      [done|]. apply index_None in n. congruence.
  - destruct (decide (- Z.of_nat (cols grid) ≤ start.2 < Z.of_nat (cols grid)));
      [done|]. apply index_None in n. congruence.
Qed.

Lemma initial_valid start grid :
  valid_subscript grid start →
  ∃ st0, initial start grid = Ret st0 ∧
         flag (visited st0) (wrapped grid start) = Some true.
Proof.
  intros [H1 H2].
  set (i := Z.to_nat (if decide (0 ≤ start.1) then start.1
                      else Z.of_nat (rows grid) + start.1)).
  set (j := Z.to_nat (if decide (0 ≤ start.2) then start.2
                      else Z.of_nat (cols grid) + start.2)).
  assert (i < rows grid)%nat as Hi by (unfold i; case_decide; lia).
  assert (j < cols grid)%nat as Hj by (unfold j; case_decide; lia).
  set (fresh := replicate (rows grid) (replicate (cols grid) false)).
  exists (State [start] (<[i := <[j := true]> (replicate (cols grid) false)]> fresh)
                {[ start := None ]}).
  assert (fresh !! i = Some (replicate (cols grid) false)) as Hrow
    by by apply lookup_replicate_2.
  split.
  - apply initial_Ret_inv. eexists. split; [|done]. apply mark_Ret.
    exists i, j, (replicate (cols grid) false). unfold fresh.
    rewrite !length_replicate. split_and!; [by apply index_wrap | done
                                            | by apply index_wrap | done].
  - simpl. rewrite flag_set; [| done | by rewrite length_replicate
                              | unfold wrapped; simpl; case_decide; lia
                              | unfold wrapped; simpl; case_decide; lia].
    rewrite decide_True; [done|]. unfold wrapped, i, j.
    f_equal; case_decide; lia.
Qed.

Section Bounds.
Variables (grid : list (list Z)) (start end_ : cell) (st0 : state).
Hypothesis Hinit : initial start grid = Ret st0.

Lemma bfs_length fuel p :
  bfs fuel start end_ grid = Ret p → (length p ≤ rows grid * cols grid)%nat.
Proof.
  rewrite (bfs_unfold grid start end_ st0 Hinit), bfs_loop_search. intros Hrun.
  destruct (initial_measure grid start st0 Hinit) as (_ & Hsz & Hun).
  pose proof (search_loop_length grid (visited st0) start end_
                (initial_open_start grid start st0 Hinit) True Py.popleft
                popleft_perm (fun _ l u rest => proj1 (popleft_Some l u rest))
                fuel fuel (fun _ : cell => O) st0 p
                (initial_loop_inv grid start end_ st0 Hinit True) Hrun).
  lia.
Qed.

Lemma dfs_length fuel p :
  dfs fuel start end_ grid = Ret p → (length p ≤ rows grid * cols grid)%nat.
Proof.
  rewrite (dfs_unfold grid start end_ st0 Hinit), dfs_loop_search. intros Hrun.
  destruct (initial_measure grid start st0 Hinit) as (_ & Hsz & Hun).
  pose proof (search_loop_length grid (visited st0) start end_
                (initial_open_start grid start st0 Hinit) False Py.pop
                pop_perm (fun (F : False) _ _ _ _ => match F with end)
                fuel fuel (fun _ : cell => O) st0 p
                (initial_loop_inv grid start end_ st0 Hinit False) Hrun).
  lia.
Qed.

Lemma bfs_raise fuel e : bfs fuel start end_ grid = Raise e → e = IndexError.
Proof.
  rewrite (bfs_unfold grid start end_ st0 Hinit), bfs_loop_search.
  apply (search_loop_raise grid (visited st0) start end_
           (initial_open_start grid start st0 Hinit) True Py.popleft
           popleft_perm (fun _ l u rest => proj1 (popleft_Some l u rest))
           fuel fuel (fun _ : cell => O) st0 e
           (initial_loop_inv grid start end_ st0 Hinit True)).
Qed.

Lemma dfs_raise fuel e : dfs fuel start end_ grid = Raise e → e = IndexError.
Proof.
  rewrite (dfs_unfold grid start end_ st0 Hinit), dfs_loop_search.
  apply (search_loop_raise grid (visited st0) start end_
           (initial_open_start grid start st0 Hinit) False Py.pop
           pop_perm (fun (F : False) _ _ _ _ => match F with end)
           fuel fuel (fun _ : cell => O) st0 e
           (initial_loop_inv grid start end_ st0 Hinit False)).
Qed.

End Bounds.

Lemma unenterable_unreachable grid start end_ :
  ¬ free grid end_ → end_ ≠ start → ¬ reachable grid start end_.
Proof.
  intros Hnf Hne [p Hp]. destruct Hnf.
  apply (route_in_path grid start end_ p end_ Hp); [|done].
  destruct Hp as (_ & Hl & _). apply last_Some in Hl as [l' ->].
  apply elem_of_app. right. by left.
Qed.

Lemma step_sym a b : step a b → step b a.
Proof.
  intros (d & Hd & ->). exists (- d.1, - d.2). split.
  - unfold directions in *.
    repeat (apply elem_of_cons in Hd as [-> | Hd]); simpl; [set_solver..|].
    by apply elem_of_nil in Hd.
  - destruct a. simpl. f_equal; lia.
Qed.

Lemma steps_reverse p : steps p → steps (reverse p).
Proof.
  induction p as [|a p IH]; [done|]. intros Hs. rewrite reverse_cons.
  apply steps_snoc. destruct p as [|b p].
  - split; [done | intros ? [=]].
  - apply steps_cons in Hs as [Hab Hs]. split; [by apply IH|].
    intros u Hu. rewrite reverse_cons, last_snoc in Hu. simplify_eq.
    by apply step_sym.
Qed.

Lemma route_reverse grid a b p :
  free grid a → route grid a b p → route grid b a (reverse p).
Proof.
  intros Ha (Hh & Hl & Hs & Hf). destruct p as [|x p]; [done|].
  simpl in Hh, Hf. simplify_eq.
  assert (Forall (free grid) (reverse (a :: p))) as Hall.
  { apply Forall_reverse. by constructor. }
  split_and!.
  - rewrite head_reverse. done.
  - rewrite last_reverse. done.
  - by apply steps_reverse.
  - destruct (reverse (a :: p)); [done|]. by inversion Hall.
Qed.

Lemma rows_create_grid r c : rows (create_grid r c) = r.
Proof. unfold rows, create_grid. by rewrite length_replicate. Qed.

Lemma cols_create_grid r c : (0 < r)%nat → cols (create_grid r c) = c.
Proof.
  intros Hr. unfold cols, create_grid. destruct r; [lia|]. simpl.
  by rewrite length_replicate.
Qed.

Lemma create_grid_rectangular r c : rectangular (create_grid r c).
Proof.
  unfold rectangular. destruct r as [|r]; [constructor|].
  rewrite cols_create_grid by lia. unfold create_grid.
  apply Forall_replicate. by rewrite length_replicate.
Qed.

Lemma create_grid_clear r c :
  Forall (Forall (fun occ => occ = 0)) (create_grid r c).
Proof. unfold create_grid. apply Forall_replicate. by apply Forall_replicate. Qed.

(** X1. [is_valid_move] answers [False] for coordinates outside the
    grid, negative ones included, without evaluating a subscript that
    could wrap around or raise; for a rectangular grid and a [visited] of
    its dimensions it never raises and answers [True] exactly for a free
    cell of the grid whose flag is [False]. *)
Theorem is_valid_move_answers x y grid v :
  (¬ in_bounds grid (x, y) → is_valid_move x y grid v = Ret false) ∧
  (rectangular grid → shape (rows grid) (cols grid) v →
   ∃ b, is_valid_move x y grid v = Ret b ∧
        (b = true ↔ free grid (x, y) ∧ flag v (x, y) = Some false)).
Proof.
  split.
  - intros Hout. unfold is_valid_move, in_bounds, rows, cols in *. simpl in *.
    case_bool_decide as Hx; [|done].
    destruct grid as [|row0 g]; [simpl in *; lia|].
    change (Py.getitem (row0 :: g) 0) with (Ret (A := list Z) row0). simpl in *.
    case_bool_decide as Hy; [lia | done].
  - intros Hrect Hs.
    destruct (is_valid_move_total grid x y v Hrect Hs) as [b Hb]. exists b.
    split; [done|]. rewrite <- is_valid_move_true. rewrite Hb.
    split; [by intros -> | by intros [= ->]].
Qed.

(** X2. When [start] is not a pair of subscripts that Python accepts
    for [visited], both searches raise [IndexError] before their loop;
    on an empty grid that is every start. *)
Theorem searches_raise_on_bad_start grid start end_ fuel :
  ¬ valid_subscript grid start →
  bfs fuel start end_ grid = Raise IndexError ∧
  dfs fuel start end_ grid = Raise IndexError.
Proof.
  intros Hno. unfold bfs, dfs. by rewrite (initial_invalid start grid Hno).
Qed.

Lemma searches_raise_on_bad_start_witness :
  ¬ valid_subscript [] (0, 0) ∧
  bfs 5 (0, 0) (1, 1) [] = Raise IndexError ∧
  dfs 5 (0, 0) (1, 1) [] = Raise IndexError.
Proof.
  assert (¬ valid_subscript [] (0, 0)) as Hno.
  { intros [[? ?] _]. simpl in *. lia. }
  split; [done|].
  exact (searches_raise_on_bad_start [] (0, 0) (1, 1) 5 Hno).
Defined.

(** X3. A start with negative coordinates that Python accepts as
    subscripts is not rejected: on a rectangular grid both searches
    return. The cell that the subscripts designate, counted from the
    end, is marked in place of start and occurs in no returned path. *)
Theorem searches_accept_wrapping_start grid start end_ fuel :
  rectangular grid → valid_subscript grid start →
  (rows grid * cols grid ≤ fuel)%nat →
  ∃ p q, bfs fuel start end_ grid = Ret p ∧ dfs fuel start end_ grid = Ret q ∧
         (wrapped grid start ≠ start →
          wrapped grid start ∉ p ∧ wrapped grid start ∉ q).
Proof.
  intros Hrect Hvalid Hfuel.
  destruct (initial_valid start grid Hvalid) as (st0 & Hinit & Hw).
  destruct (bfs_total grid start end_ st0 Hinit fuel Hfuel) as [_ Hb].
  destruct (dfs_total grid start end_ st0 Hinit fuel Hfuel) as [_ Hd].
  destruct (Hb Hrect) as [p Hp]. destruct (Hd Hrect) as [q Hq].
  exists p, q. split_and!; [done | done |]. intros Hne.
  assert (∀ l, found grid (visited st0) start end_ l → wrapped grid start ∉ l) as Hnot.
  { intros l (Hh & _ & _ & Ho & _) Hin. destruct l as [|a l]; [done|].
    simpl in Hh, Ho. simplify_eq.
    apply elem_of_cons in Hin as [? | Hin]; [done|].
    apply (proj1 (Forall_forall _ _) Ho) in Hin as [_ Hfl]. congruence. }
  split.
  - destruct (bfs_sound grid start end_ st0 Hinit fuel p Hp) as [[-> _] | [Hf _]];
      [apply not_elem_of_nil | by apply Hnot].
  - destruct (dfs_sound grid start end_ st0 Hinit fuel q Hq) as [[-> _] | Hf];
      [apply not_elem_of_nil | by apply Hnot].
Qed.

Lemma searches_accept_wrapping_start_witness :
  let grid := create_grid 3 3 in
  rectangular grid ∧ valid_subscript grid (-1, 0) ∧
  (rows grid * cols grid ≤ 9)%nat ∧
  ∃ p q, bfs 9 (-1, 0) (1, 0) grid = Ret p ∧ dfs 9 (-1, 0) (1, 0) grid = Ret q ∧
         (wrapped grid (-1, 0) ≠ (-1, 0) →
          wrapped grid (-1, 0) ∉ p ∧ wrapped grid (-1, 0) ∉ q).
Proof.
  intros grid.
  assert (rectangular grid) as Hrect by (repeat constructor).
  assert (valid_subscript grid (-1, 0)) as Hvalid by in_grid.
  assert (rows grid * cols grid ≤ 9)%nat as Hfuel by (vm_compute; lia).
  split_and!; [done | done | done |].
  exact (searches_accept_wrapping_start grid (-1, 0) (1, 0) 9 Hrect Hvalid Hfuel).
Defined.

(** X4. Neither search ever raises [KeyError]: every cell looked up in
    [parent] during the reconstruction has an entry, whatever the grid,
    start and destination. *)
Theorem searches_never_key_error grid start end_ fuel :
  bfs fuel start end_ grid ≠ Raise KeyError ∧
  dfs fuel start end_ grid ≠ Raise KeyError.
Proof.
  split; intros H.
  - destruct (initial start grid) as [st0|e|] eqn:Hinit.
    + by apply (bfs_raise grid start end_ st0 Hinit) in H.
    + unfold bfs in H. rewrite Hinit in H. simpl in H. injection H as ->.
      by apply initial_raise in Hinit.
    + by apply initial_not_fuel in Hinit.
  - destruct (initial start grid) as [st0|e|] eqn:Hinit.
    + by apply (dfs_raise grid start end_ st0 Hinit) in H.
    + unfold dfs in H. rewrite Hinit in H. simpl in H. injection H as ->.
      by apply initial_raise in Hinit.
    + by apply initial_not_fuel in Hinit.
Qed.

(** X5. A path returned by [bfs] or [dfs] has at most rows × cols
    cells. *)
Theorem path_length_bound grid start end_ fuel p :
  bfs fuel start end_ grid = Ret p ∨ dfs fuel start end_ grid = Ret p →
  (length p ≤ rows grid * cols grid)%nat.
Proof.
  intros [Hb | Hd].
  - destruct (bfs_Ret_initial _ _ _ _ _ Hb) as [st0 Hinit].
    by apply (bfs_length grid start end_ st0 Hinit fuel).
  - destruct (dfs_Ret_initial _ _ _ _ _ Hd) as [st0 Hinit].
    by apply (dfs_length grid start end_ st0 Hinit fuel).
Qed.

Lemma path_length_bound_witness :
  let grid := create_grid 3 3 in
  let p := [(0, 0); (0, 1); (0, 2); (1, 2); (2, 2); (2, 1); (2, 0)] in
  (bfs 9 (0, 0) (2, 0) grid = Ret p ∨ dfs 9 (0, 0) (2, 0) grid = Ret p) ∧
  (length p ≤ rows grid * cols grid)%nat.
Proof.
  intros grid p.
  assert (bfs 9 (0, 0) (2, 0) grid = Ret p ∨ dfs 9 (0, 0) (2, 0) grid = Ret p) as Hrun
    by (right; vm_compute; reflexivity).
  split; [done|].
  exact (path_length_bound grid (0, 0) (2, 0) 9 p Hrun).
Defined.

(** X6. A destination that is not a free cell of the grid (blocked, or
    outside the grid) and is not start makes both searches return the
    empty list, without an error. *)
Theorem unenterable_destination grid start end_ fuel :
  rectangular grid → in_bounds grid start → (rows grid * cols grid ≤ fuel)%nat →
  ¬ free grid end_ → end_ ≠ start →
  bfs fuel start end_ grid = Ret [] ∧ dfs fuel start end_ grid = Ret [].
Proof.
  intros Hrect Hin Hfuel Hnf Hne.
  pose proof (unenterable_unreachable grid start end_ Hnf Hne) as Hno.
  destruct (bfs_finds_shortest grid start end_ fuel Hrect Hin Hfuel) as (p & Hp & Hpr & _).
  destruct (dfs_finds grid start end_ fuel Hrect Hin Hfuel) as (q & Hq & Hqr).
  split.
  - destruct p; [done|]. destruct Hno. by apply Hpr.
  - destruct q; [done|]. destruct Hno. by apply Hqr.
Qed.

Lemma unenterable_destination_witness :
  let grid := create_grid 2 2 in
  rectangular grid ∧ in_bounds grid (0, 0) ∧ (rows grid * cols grid ≤ 4)%nat ∧
  ¬ free grid (2, 5) ∧ (2, 5) ≠ (0, 0) ∧
  bfs 4 (0, 0) (2, 5) grid = Ret [] ∧ dfs 4 (0, 0) (2, 5) grid = Ret [].
Proof.
  intros grid.
  assert (rectangular grid) as Hrect by (repeat constructor).
  assert (in_bounds grid (0, 0)) as Hin by in_grid.
  assert (rows grid * cols grid ≤ 4)%nat as Hfuel by (vm_compute; lia).
  assert (¬ free grid (2, 5)) as Hnf by (intros [[[_ H] _] _]; by vm_compute in H).
  assert ((2, 5) ≠ (0, 0)) as Hne by done.
  split_and!; [done | done | done | done | done | ..];
    apply (unenterable_destination grid (0, 0) (2, 5) 4 Hrect Hin Hfuel Hnf Hne).
Defined.

(** X7. Freeing cells never lengthens the answer of [bfs] and never
    loses a path: if [bfs] finds a path on a grid, it finds one no longer
    on every rectangular grid whose free cells include those of the
    first. *)
Theorem fewer_obstacles_no_longer grid grid' start end_ fuel fuel' p' :
  rectangular grid → in_bounds grid start → (rows grid * cols grid ≤ fuel)%nat →
  (∀ c, free grid' c → free grid c) →
  bfs fuel' start end_ grid' = Ret p' → p' ≠ [] →
  ∃ p, bfs fuel start end_ grid = Ret p ∧ p ≠ [] ∧ (length p ≤ length p')%nat.
Proof.
  intros Hrect Hin Hfuel Hsub Hp' Hne'.
  destruct (search_found grid' start end_ fuel' p' (or_introl Hp') Hne') as [v0 Hf].
  destruct (found_route _ _ _ _ _ Hf) as ((Hh & Hl & Hs & Hfr) & _ & _).
  assert (route grid start end_ p') as Hr.
  { split_and!; try done. eapply Forall_impl; [done | apply Hsub]. }
  destruct (bfs_finds_shortest grid start end_ fuel Hrect Hin Hfuel)
    as (p & Hp & Hiff & Hmin).
  assert (p ≠ []) as Hne by (apply Hiff; by exists p').
  exists p. split_and!; [done | done |]. by apply (Hmin Hne).
Qed.

Lemma fewer_obstacles_no_longer_witness :
  let grid := [[0; 0; 0]; [0; 0; 0]] in
  let grid' := [[0; 1; 0]; [0; 0; 0]] in
  let p' := [(0, 0); (1, 0); (1, 1); (1, 2); (0, 2)] in
  rectangular grid ∧ in_bounds grid (0, 0) ∧ (rows grid * cols grid ≤ 6)%nat ∧
  (∀ c, free grid' c → free grid c) ∧
  bfs 6 (0, 0) (0, 2) grid' = Ret p' ∧ p' ≠ [] ∧
  ∃ p, bfs 6 (0, 0) (0, 2) grid = Ret p ∧ p ≠ [] ∧ (length p ≤ length p')%nat.
Proof.
  intros grid grid' p'.
  assert (rectangular grid) as Hrect by (repeat constructor).
  assert (in_bounds grid (0, 0)) as Hin by in_grid.
  assert (rows grid * cols grid ≤ 6)%nat as Hfuel by (vm_compute; lia).
  assert (∀ c, free grid' c → free grid c) as Hsub.
  { intros c [Hb Ho]. apply clear_free; [done | repeat constructor | done]. }
  assert (bfs 6 (0, 0) (0, 2) grid' = Ret p') as Hp' by (vm_compute; reflexivity).
  assert (p' ≠ []) as Hne by done.
  split_and!; [done | done | done | done | done | done |].
  exact (fewer_obstacles_no_longer grid grid' (0, 0) (0, 2) 6 6 p'
           Hrect Hin Hfuel Hsub Hp' Hne).
Defined.

(** X8. Between two free cells the answer of [bfs] has the same number
    of cells in both directions (both empty when there is no path). *)
Theorem bfs_length_symmetric grid a b fuel :
  rectangular grid → free grid a → free grid b →
  (rows grid * cols grid ≤ fuel)%nat →
  ∃ p q, bfs fuel a b grid = Ret p ∧ bfs fuel b a grid = Ret q ∧
         length p = length q.
Proof.
  intros Hrect Ha Hb Hfuel.
  destruct (bfs_finds_shortest grid a b fuel Hrect (proj1 Ha) Hfuel)
    as (p & Hp & Hpi & Hpm).
  destruct (bfs_finds_shortest grid b a fuel Hrect (proj1 Hb) Hfuel)
    as (q & Hq & Hqi & Hqm).
  exists p, q. split_and!; [done | done |].
  assert (reachable grid a b ↔ reachable grid b a) as Hsym.
  { split; intros [r Hr]; exists (reverse r); by apply route_reverse. }
  destruct (decide (p = [])) as [-> | Hpn].
  - destruct q as [|x q]; [done|]. exfalso.
    assert (x :: q ≠ []) as Hqn by done.
    apply Hqi, Hsym, Hpi in Hqn. done.
  - assert (q ≠ []) as Hqn by (by apply Hqi, Hsym, Hpi).
    destruct (Hpm Hpn) as (Hrp & _ & Hlp). destruct (Hqm Hqn) as (Hrq & _ & Hlq).
    pose proof (Hlp (reverse q) (route_reverse grid b a q Hb Hrq)) as H1.
    pose proof (Hlq (reverse p) (route_reverse grid a b p Ha Hrp)) as H2.
    rewrite length_reverse in H1, H2. lia.
Qed.

Lemma bfs_length_symmetric_witness :
  let grid := [[0; 1; 0]; [0; 0; 0]] in
  rectangular grid ∧ free grid (0, 0) ∧ free grid (0, 2) ∧
  (rows grid * cols grid ≤ 6)%nat ∧
  ∃ p q, bfs 6 (0, 0) (0, 2) grid = Ret p ∧ bfs 6 (0, 2) (0, 0) grid = Ret q ∧
         length p = length q.
Proof.
  intros grid.
  assert (rectangular grid) as Hrect by (repeat constructor).
  assert (free grid (0, 0)) as Ha by free_cell.
  assert (free grid (0, 2)) as Hb by free_cell.
  assert (rows grid * cols grid ≤ 6)%nat as Hfuel by (vm_compute; lia).
  split_and!; [done | done | done | done |].
  exact (bfs_length_symmetric grid (0, 0) (0, 2) 6 Hrect Ha Hb Hfuel).
Defined.

(** X9. No path returned by [bfs] or [dfs] has fewer cells than the
    Manhattan distance between start and destination plus one, whatever
    the obstacles. *)
Theorem path_at_least_manhattan grid start end_ fuel p :
  bfs fuel start end_ grid = Ret p ∨ dfs fuel start end_ grid = Ret p →
  p ≠ [] → manhattan start end_ + 1 ≤ Z.of_nat (length p).
Proof.
  intros Hrun Hne. destruct (search_found grid start end_ fuel p Hrun Hne) as [v0 Hf].
  destruct Hf as (Hh & Hl & Hs & _). by apply steps_manhattan.
Qed.

Lemma path_at_least_manhattan_witness :
  let grid := create_grid 3 3 in
  let p := [(0, 0); (0, 1); (0, 2); (1, 2); (2, 2); (2, 1); (2, 0)] in
  (bfs 9 (0, 0) (2, 0) grid = Ret p ∨ dfs 9 (0, 0) (2, 0) grid = Ret p) ∧
  p ≠ [] ∧ manhattan (0, 0) (2, 0) + 1 ≤ Z.of_nat (length p).
Proof.
  intros grid p.
  assert (bfs 9 (0, 0) (2, 0) grid = Ret p ∨ dfs 9 (0, 0) (2, 0) grid = Ret p) as Hrun
    by (right; vm_compute; reflexivity).
  assert (p ≠ []) as Hne by done.
  split_and!; [done | done |].
  exact (path_at_least_manhattan grid (0, 0) (2, 0) 9 p Hrun Hne).
Defined.

(** X10. Whenever [bfs] and [dfs] both return on the same grid, start
    and destination, either both return the empty list or both return a
    path; this needs neither a rectangular grid nor a start inside it. *)
Theorem searches_agree grid start end_ fuel fuel' p q :
  bfs fuel start end_ grid = Ret p → dfs fuel' start end_ grid = Ret q →
  (p = [] ↔ q = []).
Proof.
  intros Hb Hd.
  destruct (bfs_Ret_initial _ _ _ _ _ Hb) as [st0 Hinit].
  destruct (bfs_sound grid start end_ st0 Hinit fuel p Hb) as [[-> Hno] | [Hf _]];
    destruct (dfs_sound grid start end_ st0 Hinit fuel' q Hd) as [[-> Hno'] | Hf'];
    try done.
  - destruct (Hno q). by apply found_open_route.
  - destruct (Hno' p). by apply found_open_route.
  - destruct (found_route _ _ _ _ _ Hf) as (_ & _ & ?).
    destruct (found_route _ _ _ _ _ Hf') as (_ & _ & ?). done.
Qed.

Lemma searches_agree_witness :
  let grid := create_grid 2 2 in
  let p := [(0, 0); (1, 0); (1, 1)] in
  let q := [(0, 0); (0, 1); (1, 1)] in
  bfs 4 (0, 0) (1, 1) grid = Ret p ∧ dfs 4 (0, 0) (1, 1) grid = Ret q ∧
  (p = [] ↔ q = []).
Proof.
  intros grid p q.
  assert (bfs 4 (0, 0) (1, 1) grid = Ret p) as Hb by (vm_compute; reflexivity).
  assert (dfs 4 (0, 0) (1, 1) grid = Ret q) as Hd by (vm_compute; reflexivity).
  split_and!; [done | done |].
  exact (searches_agree grid (0, 0) (1, 1) 4 4 p q Hb Hd).
Defined.

(** X11. [create_grid(rows, cols)] is a rectangular grid of [rows] rows
    and [cols] columns whose cells are all free, so that [bfs] joins any
    two of its cells by a path of Manhattan distance plus one cells. *)
Theorem create_grid_search (r c : nat) (a b : cell) :
  0 ≤ a.1 < Z.of_nat r → 0 ≤ a.2 < Z.of_nat c →
  0 ≤ b.1 < Z.of_nat r → 0 ≤ b.2 < Z.of_nat c →
  rows (create_grid r c) = r ∧ cols (create_grid r c) = c ∧
  rectangular (create_grid r c) ∧
  (∀ x, in_bounds (create_grid r c) x → free (create_grid r c) x) ∧
  ∃ p, bfs (r * c) a b (create_grid r c) = Ret p ∧
       Z.of_nat (length p) = manhattan a b + 1.
Proof.
  intros Ha1 Ha2 Hb1 Hb2.
  pose proof (rows_create_grid r c) as Hr.
  pose proof (cols_create_grid r c ltac:(lia)) as Hc.
  pose proof (create_grid_rectangular r c) as Hrect.
  pose proof (create_grid_clear r c) as Hclear.
  assert (in_bounds (create_grid r c) a) as Ha by (unfold in_bounds; by rewrite Hr, Hc).
  assert (in_bounds (create_grid r c) b) as Hb by (unfold in_bounds; by rewrite Hr, Hc).
  split_and!; [done | done | done | intros x; by apply clear_free |].
  destruct (bfs_finds_shortest (create_grid r c) a b (r * c) Hrect Ha)
    as (p & Hp & Hiff & Hmin); [by rewrite Hr, Hc|].
  destruct (clear_route (create_grid r c) Hrect Hclear (Z.to_nat (manhattan a b)) a b)
    as (q & Hq & Hlen); [done | done | unfold manhattan; lia |].
  assert (p ≠ []) as Hne by (apply Hiff; by exists q).
  destruct (Hmin Hne) as ((Hh & Hl & Hst & _) & _ & Hle).
  exists p. split; [done|].
  pose proof (steps_manhattan p a b Hh Hl Hst).
  specialize (Hle q Hq). unfold manhattan in *. lia.
Qed.

Lemma create_grid_search_witness :
  0 ≤ 0 < Z.of_nat 10 ∧ 0 ≤ 0 < Z.of_nat 10 ∧
  0 ≤ 9 < Z.of_nat 10 ∧ 0 ≤ 9 < Z.of_nat 10 ∧
  rows (create_grid 10 10) = 10%nat ∧ cols (create_grid 10 10) = 10%nat ∧
  rectangular (create_grid 10 10) ∧
  (∀ x, in_bounds (create_grid 10 10) x → free (create_grid 10 10) x) ∧
  ∃ p, bfs (10 * 10) (0, 0) (9, 9) (create_grid 10 10) = Ret p ∧
       Z.of_nat (length p) = manhattan (0, 0) (9, 9) + 1.
Proof.
  assert (0 ≤ 0 < Z.of_nat 10) as H0 by lia.
  assert (0 ≤ 9 < Z.of_nat 10) as H9 by lia.
  refine (conj H0 (conj H0 (conj H9 (conj H9 _)))).
  exact (create_grid_search 10 10 (0, 0) (9, 9) H0 H0 H9 H9).
Defined.

(** ** The application *)

Lemma each_Ret {A : Type} (f : A → outcome unit) (l : list A) :
  (∀ a, a ∈ l → f a = Ret tt) → each f l = Ret tt.
Proof.
  induction l as [|a l IH]; intros Hf; simpl; [done|].
  rewrite Hf by by left. simpl. apply IH. intros b Hb. apply Hf. by right.
Qed.

Lemma elem_of_range n i : i ∈ range n ↔ 0 ≤ i < Z.of_nat n.
Proof.
  unfold range. rewrite list_elem_of_fmap. split.
  - intros (k & -> & Hk). apply elem_of_seq in Hk. lia.
  - intros Hi. exists (Z.to_nat i). split; [lia|]. apply elem_of_seq. lia.
Qed.

Lemma draw_grid_ok a :
  length (app_grid a) = grid_size →
  Forall (fun row => length row = grid_size) (app_grid a) →
  draw_grid a = Ret tt.
Proof.
  intros Hn Hm. unfold draw_grid. apply each_Ret. intros i Hi%elem_of_range.
  apply each_Ret. intros j Hj%elem_of_range.
  destruct (getitem_in_range (app_grid a) i) as [row Hrow]; [lia|].
  rewrite Hrow. simpl. apply getitem_nonneg in Hrow as Hl; [|lia].
  pose proof (Forall_lookup_1 _ _ _ _ Hm Hl) as Hlen. simpl in Hlen.
  destruct (getitem_in_range row j) as [occ Hocc]; [lia|].
  by rewrite Hocc.
Qed.

Lemma assign_set_cell grid c v :
  0 ≤ c.1 → 0 ≤ c.2 → is_Some (occupancy grid c) →
  assign grid c.1 c.2 v = Ret (set_cell grid c v).
Proof.
  intros H1 H2 [occ Hocc]. unfold occupancy in Hocc. unfold assign, set_cell.
  destruct (grid !! Z.to_nat c.1) as [row|] eqn:Hrow; [simpl in Hocc | done].
  rewrite (proj2 (getitem_nonneg grid c.1 row H1) Hrow). simpl.
  pose proof (lookup_lt_Some _ _ _ Hocc). pose proof (lookup_lt_Some _ _ _ Hrow).
  unfold Py.setitem. rewrite !index_nonneg by done.
  rewrite decide_True by lia. simpl. by rewrite decide_True by lia.
Qed.

Lemma occupancy_set_cell grid c v x :
  0 ≤ c.1 → 0 ≤ c.2 → 0 ≤ x.1 → 0 ≤ x.2 → is_Some (occupancy grid c) →
  occupancy (set_cell grid c v) x =
    if decide (x = c) then Some v else occupancy grid x.
Proof.
  intros Hc1 Hc2 Hx1 Hx2 [occ Hocc]. unfold occupancy in *. unfold set_cell.
  destruct (grid !! Z.to_nat c.1) as [row|] eqn:Hrow; [simpl in Hocc | done].
  pose proof (lookup_lt_Some _ _ _ Hocc). pose proof (lookup_lt_Some _ _ _ Hrow).
  destruct c as [c1 c2], x as [x1 x2]. simpl in *.
  destruct (decide (Z.to_nat x1 = Z.to_nat c1)) as [E1 | N1].
  - rewrite E1, list_lookup_insert_eq by done. simpl.
    destruct (decide (Z.to_nat x2 = Z.to_nat c2)) as [E2 | N2].
    + rewrite E2, list_lookup_insert_eq by done.
      rewrite decide_True; [done | f_equal; lia].
    + rewrite list_lookup_insert_ne by done.
      rewrite decide_False; [by rewrite Hrow | intros [= ? ?]; lia].
  - rewrite list_lookup_insert_ne by done.
    rewrite decide_False; [done | intros [= ? ?]; lia].
Qed.

Lemma set_cell_rows grid c v (P : list Z → Prop) :
  (∀ row, P row → P (<[Z.to_nat c.2 := v]> row)) →
  length grid = grid_size → Forall P grid →
  length (set_cell grid c v) = grid_size ∧ Forall P (set_cell grid c v).
Proof.
  intros HP Hn Hall. unfold set_cell.
  destruct (grid !! Z.to_nat c.1) as [row|] eqn:Hrow; [|done].
  split; [by rewrite length_insert|].
  apply Forall_insert; [done|]. apply HP. by apply (Forall_lookup_1 _ _ _ _ Hall Hrow).
Qed.


Lemma cell_at_in_canvas ex ey :
  in_canvas ex ey →
  0 ≤ (cell_at ex ey).1 < Z.of_nat grid_size ∧
  0 ≤ (cell_at ex ey).2 < Z.of_nat grid_size.
Proof.
  unfold in_canvas, cell_at, cell_size, grid_size. simpl. intros [[? ?] [? ?]].
  split_and!; try (apply Z.div_pos; lia); apply Z.div_lt_upper_bound; lia.
Qed.

Lemma well_formed_dims a :
  well_formed a →
  rows (app_grid a) = grid_size ∧ cols (app_grid a) = grid_size ∧
  rectangular (app_grid a).
Proof.
  intros (Hn & Hall & _). unfold rows, cols, rectangular.
  assert (Forall (fun row => length row = grid_size) (app_grid a)) as Hlen
    by (eapply Forall_impl; [done | by intros ? [? _]]).
  destruct (app_grid a) as [|row0 g]; [done|]. simpl.
  inversion Hlen; subst. split_and!; [done | done |].
  unfold cols. simpl. by replace (length row0) with grid_size.
Qed.

Lemma well_formed_occupied a c :
  well_formed a → in_bounds (app_grid a) c →
  occupancy (app_grid a) c = Some 0 ∨ occupancy (app_grid a) c = Some 1.
Proof.
  intros Hwf [H1 H2]. destruct (well_formed_dims a Hwf) as (Hr & Hc & _).
  destruct Hwf as (Hn & Hall & _). unfold occupancy, rows in *.
  destruct (lookup_lt_is_Some_2 (app_grid a) (Z.to_nat c.1)) as [row Hrow]; [lia|].
  rewrite Hrow. simpl.
  destruct (Forall_lookup_1 _ _ _ _ Hall Hrow) as [Hlen Hocc].
  destruct (lookup_lt_is_Some_2 row (Z.to_nat c.2)) as [occ Ho]; [lia|].
  rewrite Ho. destruct (Forall_lookup_1 _ _ _ _ Hocc Ho) as [-> | ->]; auto.
Qed.

(** What a click inside the canvas does to a well-formed state. *)
Lemma click_inside a ex ey :
  well_formed a → in_canvas ex ey →
  let c := cell_at ex ey in
  in_bounds (app_grid a) c ∧
  set_destination_or_obstacle a ex ey = Ret (
    if decide (c = (0, 0)) then a
    else if decide (occupancy (app_grid a) c = Some 0) then
      match app_end a with
      | None => App (app_grid a) (app_start a) (Some c)
      | Some _ => App (set_cell (app_grid a) c 1) (app_start a) (app_end a)
      end
    else App (set_cell (app_grid a) c 0) (app_start a) (app_end a)).
Proof.
  intros Hwf Hcan c.
  destruct (cell_at_in_canvas ex ey Hcan) as [Hc1 Hc2]. fold c in Hc1, Hc2.
  destruct (well_formed_dims a Hwf) as (Hr & Hcl & Hrect).
  assert (in_bounds (app_grid a) c) as Hin by (unfold in_bounds; by rewrite Hr, Hcl).
  split; [done|].
  pose proof (well_formed_occupied a c Hwf Hin) as Hocc.
  destruct Hwf as (Hn & Hall & Hst & H00 & Hend).
  assert (Forall (fun row => length row = grid_size) (app_grid a)) as Hlen
    by (eapply Forall_impl; [exact Hall | by intros ? [? _]]).
  assert (∀ v e, draw_grid (App (set_cell (app_grid a) c v) (app_start a) e) = Ret tt)
    as Hdraw.
  { intros v e.
    assert (∀ row : list Z, length row = grid_size →
              length (<[Z.to_nat c.2 := v]> row) = grid_size) as HP
      by (intros row Hrow; by rewrite length_insert).
    destruct (set_cell_rows (app_grid a) c v _ HP Hn Hlen) as [? ?].
    by apply draw_grid_ok. }
  unfold set_destination_or_obstacle. fold (cell_at ex ey). fold c.
  rewrite Hst in Hdraw |- *.
  destruct (decide (c = (0, 0))) as [Heq|Hne]; [by rewrite decide_True by done|].
  rewrite decide_False by done.
  assert (∃ row occ, app_grid a !! Z.to_nat c.1 = Some row ∧
                     row !! Z.to_nat c.2 = Some occ ∧
                     occupancy (app_grid a) c = Some occ) as (row & occ & Hrow & Ho & Hoc).
  { destruct Hocc as [Hoc | Hoc]; pose proof Hoc as Hoc'; unfold occupancy in Hoc';
      destruct (app_grid a !! Z.to_nat c.1) as [row|] eqn:Hrow; simpl in Hoc';
      try done; eauto. }
  change (ey `div` cell_size) with c.1. change (ex `div` cell_size) with c.2.
  rewrite (proj2 (getitem_nonneg (app_grid a) c.1 row ltac:(lia)) Hrow).
  cbn [obind].
  rewrite (proj2 (getitem_nonneg row c.2 occ ltac:(lia)) Ho).
  cbn [obind]. rewrite Hoc.
  assert (∀ v, assign (app_grid a) c.1 c.2 v = Ret (set_cell (app_grid a) c v)) as Has.
  { intros v. apply assign_set_cell; [lia | lia | by rewrite Hoc]. }
  case_bool_decide as Hz.
  - subst occ. rewrite decide_True by done. destruct (app_end a) as [e|].
    + rewrite Has. cbn [obind]. by rewrite Hdraw.
    + rewrite draw_grid_ok by done. done.
  - rewrite decide_False by congruence. rewrite Has. cbn [obind]. by rewrite Hdraw.
Qed.

Lemma new_app_well_formed : well_formed new_app.
Proof.
  unfold well_formed, new_app. simpl. split_and!; try done.
  unfold create_grid. apply Forall_replicate.
  split; [by rewrite length_replicate|]. apply Forall_replicate. by left.
Qed.

Lemma click_well_formed a ex ey :
  well_formed a → in_canvas ex ey →
  ∃ a', set_destination_or_obstacle a ex ey = Ret a' ∧ well_formed a' ∧
        app_start a' = app_start a ∧
        (∀ e, app_end a = Some e → app_end a' = Some e).
Proof.
  intros Hwf Hcan. destruct (click_inside a ex ey Hwf Hcan) as [Hin Hclick].
  set (c := cell_at ex ey) in *. eexists. split; [exact Hclick|].
  destruct (decide (c = (0, 0))) as [|Hne]; [done|].
  pose proof (well_formed_occupied a c Hwf Hin) as Hocc.
  destruct (well_formed_dims a Hwf) as (Hr & Hcl & _).
  pose proof Hwf as (Hn & Hall & Hst & H00 & Hend).
  assert (0 ≤ c.1 ∧ 0 ≤ c.2) as [Hc1 Hc2] by (destruct Hin; lia).
  assert (∀ v, v = 0 ∨ v = 1 → ∀ e,
            (∀ x, e = Some x → in_bounds (app_grid a) x ∧ x ≠ (0, 0)) →
            well_formed (App (set_cell (app_grid a) c v) (app_start a) e)) as Hset.
  { intros v Hv e He.
    assert (∀ row : list Z,
              length row = grid_size ∧ Forall (fun occ => occ = 0 ∨ occ = 1) row →
              length (<[Z.to_nat c.2 := v]> row) = grid_size ∧
              Forall (fun occ => occ = 0 ∨ occ = 1) (<[Z.to_nat c.2 := v]> row)) as HP.
    { intros row [Hl Hrow]. split; [by rewrite length_insert|].
      destruct (decide (Z.to_nat c.2 < length row)%nat).
      - by apply Forall_insert.
      - by rewrite list_insert_ge by lia. }
    destruct (set_cell_rows (app_grid a) c v _ HP Hn Hall) as [Hn' Hall'].
    assert (well_formed (App (set_cell (app_grid a) c v) (app_start a) None)) as Hwf'.
    { split_and!; simpl; [done | done | done | | intros ? [=]].
      rewrite occupancy_set_cell; [| done | done | done | done | by destruct Hocc as [-> | ->]].
      by rewrite decide_False. }
    destruct (well_formed_dims _ Hwf') as (Hr' & Hcl' & _). simpl in *.
    split_and!; simpl; try apply Hwf'.
    intros x Hx. destruct (He x Hx) as [Hxin ?]. split; [|done].
    unfold in_bounds in *. rewrite Hr', Hcl'. by rewrite Hr, Hcl in Hxin. }
  case_decide as Hz.
  - destruct (app_end a) as [e|] eqn:Hend'.
    + split_and!; [| done | done].
      apply Hset; [by right | done].
    + split_and!; [| done | done].
      split_and!; simpl; try done. intros e [= <-]. done.
  - split_and!; [| done | done]. apply Hset; [by left | done].
Qed.

(** X12. From a well-formed state, any sequence of clicks inside the
    canvas is handled without an exception and leaves a well-formed
    state: the grid stays 10 by 10 with entries 0 and 1, the start cell
    stays free, and a destination, once chosen, is never moved or
    cleared. *)
Theorem clicks_keep_well_formed events a :
  well_formed a → Forall (fun ev => in_canvas ev.1 ev.2) events →
  ∃ a', clicks events a = Ret a' ∧ well_formed a' ∧
        app_start a' = app_start a ∧
        (∀ e, app_end a = Some e → app_end a' = Some e).
Proof.
  intros Hwf Hev. revert a Hwf.
  induction Hev as [|[ex ey] events Hcan _ IH]; intros a Hwf; simpl.
  - by exists a.
  - destruct (click_well_formed a ex ey Hwf Hcan) as (a1 & H1 & Hwf1 & Hs1 & He1).
    rewrite H1. simpl.
    destruct (IH a1 Hwf1) as (a' & H' & Hwf' & Hs' & He').
    exists a'. split_and!; [done | done | congruence | auto].
Qed.

Lemma clicks_keep_well_formed_witness :
  let events := [(120, 60); (499, 0); (10, 10); (120, 60)] in
  well_formed new_app ∧ Forall (fun ev => in_canvas ev.1 ev.2) events ∧
  ∃ a', clicks events new_app = Ret a' ∧ well_formed a' ∧
        app_start a' = app_start new_app ∧
        (∀ e, app_end new_app = Some e → app_end a' = Some e).
Proof.
  intros events.
  assert (Forall (fun ev => in_canvas ev.1 ev.2) events) as Hev
    by (repeat (constructor; [in_grid|]); constructor).
  split_and!; [apply new_app_well_formed | done |].
  exact (clicks_keep_well_formed events new_app new_app_well_formed Hev).
Defined.



Lemma unenterable_returns_empty grid start end_ fuel :
  rectangular grid → in_bounds grid start → (rows grid * cols grid ≤ fuel)%nat →
  ¬ free grid end_ → end_ ≠ start →
  bfs fuel start end_ grid = Ret [] ∧ dfs fuel start end_ grid = Ret [].
Proof.
  intros Hrect Hin Hfuel Hnf Hne.
  pose proof (unenterable_unreachable grid start end_ Hnf Hne) as Hno.
  destruct (bfs_finds_shortest grid start end_ fuel Hrect Hin Hfuel) as (p & Hp & Hpr & _).
  destruct (dfs_finds grid start end_ fuel Hrect Hin Hfuel) as (q & Hq & Hqr).
  split.
  - destruct p; [done|]. destruct Hno. by apply Hpr.
  - destruct q; [done|]. destruct Hno. by apply Hqr.
Qed.

Lemma well_formed_start a : well_formed a → in_bounds (app_grid a) (app_start a).
Proof.
  intros Hwf. destruct (well_formed_dims a Hwf) as (Hr & Hc & _).
  destruct Hwf as (_ & _ & -> & _). unfold in_bounds. rewrite Hr, Hc.
  unfold grid_size. simpl. lia.
Qed.

(** X14. A click on the cell of the chosen destination, while it is
    free, turns the destination itself into an obstacle and keeps it as
    destination; from then on both [find_path_bfs] and [find_path_dfs]
    report that no path is found. *)
Theorem click_on_destination_blocks_it a e ex ey fuel :
  well_formed a → app_end a = Some e → occupancy (app_grid a) e = Some 0 →
  in_canvas ex ey → cell_at ex ey = e → (100 ≤ fuel)%nat →
  ∃ a', set_destination_or_obstacle a ex ey = Ret a' ∧
        app_end a' = Some e ∧ occupancy (app_grid a') e = Some 1 ∧
        find_path_bfs fuel a' = Ret NoPathFound ∧
        find_path_dfs fuel a' = Ret NoPathFound.
Proof.
  intros Hwf He Hfree Hcan Hcell Hfuel.
  destruct (click_inside a ex ey Hwf Hcan) as [Hin H1].
  destruct (click_well_formed a ex ey Hwf Hcan) as (a' & H1' & Hwf' & Hs' & He').
  rewrite H1' in H1. injection H1 as Ha'. rewrite Hcell in *.
  destruct (proj2 (proj2 (proj2 (proj2 Hwf))) e He) as [_ Hne].
  rewrite decide_False in Ha' by done. rewrite decide_True in Ha' by done.
  rewrite He in Ha'.
  assert (occupancy (app_grid a') e = Some 1) as Hocc.
  { rewrite Ha'. simpl. rewrite occupancy_set_cell;
      [by rewrite decide_True | destruct Hin; lia .. | by rewrite Hfree]. }
  exists a'. split_and!; [done | by apply He' | done | |].
  all: destruct (well_formed_dims a' Hwf') as (Hr & Hc & Hrect);
    pose proof (well_formed_start a' Hwf') as Hst;
    destruct (unenterable_returns_empty (app_grid a') (app_start a') e fuel Hrect Hst)
      as [Hb Hd];
    [ rewrite Hr, Hc; unfold grid_size; lia
    | intros [_ Hf]; congruence
    | destruct Hwf' as (_ & _ & -> & _); done
    | ].
  - unfold find_path_bfs. rewrite (He' e He). by rewrite Hb.
  - unfold find_path_dfs. rewrite (He' e He). by rewrite Hd.
Qed.

Lemma click_on_destination_blocks_it_witness :
  let a := App (create_grid 10 10) (0, 0) (Some (3, 4)) in
  well_formed a ∧ app_end a = Some (3, 4) ∧
  occupancy (app_grid a) (3, 4) = Some 0 ∧
  in_canvas 220 170 ∧ cell_at 220 170 = (3, 4) ∧ (100 ≤ 100)%nat ∧
  ∃ a', set_destination_or_obstacle a 220 170 = Ret a' ∧
        app_end a' = Some (3, 4) ∧ occupancy (app_grid a') (3, 4) = Some 1 ∧
        find_path_bfs 100 a' = Ret NoPathFound ∧
        find_path_dfs 100 a' = Ret NoPathFound.
Proof.
  intros a.
  assert (well_formed a) as Hwf.
  { destruct new_app_well_formed as (Hn & Hall & Hst & H00 & _).
    split_and!; try done. intros e [= <-]. split; [in_grid | done]. }
  assert (app_end a = Some (3, 4)) as He by done.
  assert (occupancy (app_grid a) (3, 4) = Some 0) as Hfree by reflexivity.
  assert (in_canvas 220 170) as Hcan by in_grid.
  assert (cell_at 220 170 = (3, 4)) as Hcell by reflexivity.
  assert (100 ≤ 100)%nat as Hfuel by lia.
  split_and!; [done | done | done | done | done | done |].
  exact (click_on_destination_blocks_it a (3, 4) 220 170 100
           Hwf He Hfree Hcan Hcell Hfuel).
Defined.

(** X15. On a well-formed state with a destination, [find_path_bfs]
    and [find_path_dfs] never raise. When the destination is reachable
    they animate a path from start to destination, in blue for the
    breadth-first one, which is a shortest one, and in green for the
    depth-first one; otherwise both report that no path is found. *)
Theorem find_path_reports a e fuel :
  well_formed a → app_end a = Some e → (100 ≤ fuel)%nat →
  (reachable (app_grid a) (0, 0) e →
   ∃ p q, find_path_bfs fuel a = Ret (Animate p "blue") ∧
          find_path_dfs fuel a = Ret (Animate q "green") ∧
          route (app_grid a) (0, 0) e p ∧ route (app_grid a) (0, 0) e q ∧
          ∀ r, route (app_grid a) (0, 0) e r → (length p ≤ length r)%nat) ∧
  (¬ reachable (app_grid a) (0, 0) e →
   find_path_bfs fuel a = Ret NoPathFound ∧
   find_path_dfs fuel a = Ret NoPathFound).
Proof.
  intros Hwf He Hfuel.
  destruct (well_formed_dims a Hwf) as (Hr & Hc & Hrect).
  pose proof (well_formed_start a Hwf) as Hst.
  assert (app_start a = (0, 0)) as Hs0 by apply Hwf.
  assert (rows (app_grid a) * cols (app_grid a) ≤ fuel)%nat as Hf
    by (rewrite Hr, Hc; unfold grid_size; lia).
  destruct (bfs_finds_shortest (app_grid a) (app_start a) e fuel Hrect Hst Hf)
    as (p & Hp & Hpi & Hpm).
  destruct (dfs_finds (app_grid a) (app_start a) e fuel Hrect Hst Hf)
    as (q & Hq & Hqi).
  unfold find_path_bfs, find_path_dfs. rewrite He, Hp, Hq. cbn [obind].
  rewrite Hs0 in *. split.
  - intros Hreach. apply Hpi in Hreach as Hpn. apply Hqi in Hreach as Hqn.
    destruct (Hpm Hpn) as (Hrp & _ & Hmin).
    destruct (search_found (app_grid a) (0, 0) e fuel q (or_intror Hq) Hqn) as [v0 Hfq].
    destruct (found_route _ _ _ _ _ Hfq) as (Hrq & _ & _).
    destruct p as [|x p]; [done|]. destruct q as [|y q]; [done|].
    by exists (x :: p), (y :: q).
  - intros Hno. destruct p as [|x p]; [|destruct Hno; by apply Hpi].
    destruct q as [|y q]; [done | destruct Hno; by apply Hqi].
Qed.

Lemma find_path_reports_witness :
  let a := App (create_grid 10 10) (0, 0) (Some (3, 4)) in
  well_formed a ∧ app_end a = Some (3, 4) ∧ (100 ≤ 100)%nat ∧
  (reachable (app_grid a) (0, 0) (3, 4) →
   ∃ p q, find_path_bfs 100 a = Ret (Animate p "blue") ∧
          find_path_dfs 100 a = Ret (Animate q "green") ∧
          route (app_grid a) (0, 0) (3, 4) p ∧ route (app_grid a) (0, 0) (3, 4) q ∧
          ∀ r, route (app_grid a) (0, 0) (3, 4) r → (length p ≤ length r)%nat) ∧
  (¬ reachable (app_grid a) (0, 0) (3, 4) →
   find_path_bfs 100 a = Ret NoPathFound ∧
   find_path_dfs 100 a = Ret NoPathFound).
Proof.
  intros a.
  assert (well_formed a) as Hwf.
  { destruct new_app_well_formed as (Hn & Hall & Hst & H00 & _).
    split_and!; try done. intros e [= <-]. split; [in_grid | done]. }
  assert (app_end a = Some (3, 4)) as He by done.
  assert (100 ≤ 100)%nat as Hfuel by lia.
  refine (conj Hwf (conj He (conj Hfuel _))).
  exact (find_path_reports a (3, 4) 100 Hwf He Hfuel).
Defined.

(** X16. A click at a pixel with non-negative coordinates beyond the
    canvas (500 or more in either direction) raises [IndexError]: the
    handler checks no bound before it reads [self.grid[x][y]]. *)
Theorem click_outside_canvas_raises a ex ey :
  well_formed a → 0 ≤ ex → 0 ≤ ey →
  cell_size * Z.of_nat grid_size ≤ ex ∨ cell_size * Z.of_nat grid_size ≤ ey →
  set_destination_or_obstacle a ex ey = Raise IndexError.
Proof.
  intros Hwf Hx Hy Hout. unfold set_destination_or_obstacle.
  destruct (well_formed_dims a Hwf) as (Hr & Hc & _).
  pose proof Hwf as (Hn & Hall & Hst & _).
  assert (0 ≤ ey `div` cell_size ∧ 0 ≤ ex `div` cell_size) as [Hdy Hdx]
    by (unfold cell_size; split; apply Z.div_pos; lia).
  assert (10 ≤ ex `div` cell_size ∨ 10 ≤ ey `div` cell_size) as Hbig.
  { unfold cell_size, grid_size in *.
    destruct Hout; [left | right]; apply Z.div_le_lower_bound; lia. }
  rewrite Hst. rewrite decide_False by (intros [= ? ?]; lia).
  destruct (decide (ey `div` cell_size < 10)) as [Hlt | Hge].
  - destruct (getitem_in_range (app_grid a) (ey `div` cell_size)) as [row Hrow];
      [rewrite Hn; unfold grid_size; lia|].
    rewrite Hrow. cbn [obind].
    apply getitem_nonneg in Hrow as Hl; [|done].
    destruct (Forall_lookup_1 _ _ _ _ Hall Hl) as [Hlen _].
    unfold Py.getitem. rewrite index_nonneg by done.
    rewrite decide_False; [done|]. rewrite Hlen. unfold grid_size. lia.
  - unfold Py.getitem at 1. rewrite index_nonneg by done.
    rewrite decide_False; [done|]. rewrite Hn. unfold grid_size. lia.
Qed.

Lemma click_outside_canvas_raises_witness :
  well_formed new_app ∧ 0 ≤ 500 ∧ 0 ≤ 60 ∧
  (cell_size * Z.of_nat grid_size ≤ 500 ∨ cell_size * Z.of_nat grid_size ≤ 60) ∧
  set_destination_or_obstacle new_app 500 60 = Raise IndexError.
Proof.
  assert (0 ≤ 500) as Hx by lia.
  assert (0 ≤ 60) as Hy by lia.
  assert (cell_size * Z.of_nat grid_size ≤ 500 ∨ cell_size * Z.of_nat grid_size ≤ 60)
    as Hout by (left; by vm_compute).
  refine (conj new_app_well_formed (conj Hx (conj Hy (conj Hout _)))).
  exact (click_outside_canvas_raises new_app 500 60 new_app_well_formed Hx Hy Hout).
Defined.
